(** * A shallow embedding of [Vector<T>] and [RawMemory<T>] (src/vector.h)

    Conventions of the model.

    - [size_t] quantities ([size_], [capacity_], loop counters) are integers in
      [Z].  The elements of a vector form an array of [Size() * sizeof(T)]
      bytes, at most [PTRDIFF_MAX], so [Size() * 2] and [size_++] do not wrap
      and are written without a reduction.  [int pos] in [Emplace] and
      [Erase] is a 32-bit signed integer and holds a pointer difference that
      can exceed it: its narrowing [to_int] is written out.
    - [Allocate(n)] passes the [size_t] product [n * sizeof(T)] to
      [operator new].  Where the caller supplies [n] ([Vector(n)],
      [Reserve(c)], [Resize(n)]) the product can wrap and its reduction is
      written out, see [Allocate_slots].  Where [n] is the size of a vector
      or twice that (copy construction, growth) the product is at most twice
      the byte size of a live array and does not wrap.
    - A block of raw memory is a function from slot index to [option T]:
      [None] is uninitialized storage, [Some x] a live object of value [x].
    - Element operations that can throw (allocation, constructors, copy and
      move assignment) consult a fault schedule: [After k] lets [k] such
      operations succeed and makes the next one throw, [Never] lets all of
      them succeed.
    - An operation on a vector ends in [Done] (normal return), [Thrown] (an
      exception leaves the function, the vector is in the given state) or
      [Undefined] (the execution has undefined behaviour). *)

From Stdlib Require Import ZArith Lia Bool List.
Import ListNotations.
Open Scope Z_scope.

(** ** Fault schedules *)

Inductive schedule : Type :=
| Never
| After (k : nat).

Definition tick (f : schedule) : option schedule :=
  match f with
  | Never => Some Never
  | After O => None
  | After (S k) => Some (After k)
  end.

(** ** Element types *)

(** What the container needs to know of [T]: the value of [T()], the value
    a moved-from object is left with, the type traits the relocation
    policy branches on, and [sizeof(T)]. *)
Class Element (T : Type) : Type := {
  value_init : T;
  moved_from : T -> T;
  is_nothrow_move_constructible : bool;
  is_copy_constructible : bool;
  sizeof_T : Z
}.

(** [int] is 32 bits wide; the conversion of a [ptrdiff_t] to it is modular. *)
Definition to_int (z : Z) : Z := (z + 2 ^ 31) mod 2 ^ 32 - 2 ^ 31.

Section VectorModel.

Context {T : Type} `{ET : Element T}.

(** ** Raw blocks *)

Definition block : Type := Z -> option T.

Definition raw : block := fun _ => None.

Definition upd (b : block) (i : Z) (c : option T) : block :=
  fun j => if j =? i then c else b j.

(** [std::destroy_n(first, n)] and [std::destroy_at]. *)
Fixpoint destroy_n (n : nat) (b : block) (i : Z) : block :=
  match n with
  | O => b
  | S n' => destroy_n n' (upd b i None) (i + 1)
  end.

(** A move constructor ticks the schedule only when it can throw. *)
Definition move_tick (f : schedule) : option schedule :=
  if is_nothrow_move_constructible then Some f else tick f.

(** [std::uninitialized_copy_n(src + s, n, dst + d)]: on an exception the
    objects already constructed are destroyed, the destination is raw
    again, and [None] is returned. *)
Fixpoint uninitialized_copy_n (n : nat) (src : block) (s : Z)
    (dst : block) (d : Z) (f : schedule) : option (block * schedule) :=
  match n with
  | O => Some (dst, f)
  | S n' =>
      match tick f with
      | None => None
      | Some f' => uninitialized_copy_n n' src (s + 1) (upd dst d (src s)) (d + 1) f'
      end
  end.

(** [std::uninitialized_move_n(src + s, n, dst + d)]: the sources already
    moved stay moved-from when a later move throws. *)
Fixpoint uninitialized_move_n (n : nat) (src : block) (s : Z)
    (dst : block) (d : Z) (f : schedule) : block * option (block * schedule) :=
  match n with
  | O => (src, Some (dst, f))
  | S n' =>
      match move_tick f with
      | None => (src, None)
      | Some f' =>
          uninitialized_move_n n' (upd src s (option_map moved_from (src s))) (s + 1)
            (upd dst d (src s)) (d + 1) f'
      end
  end.

(** [std::uninitialized_value_construct_n(dst + d, n)]. *)
Fixpoint uninitialized_value_construct_n (n : nat) (dst : block) (d : Z)
    (f : schedule) : option (block * schedule) :=
  match n with
  | O => Some (dst, f)
  | S n' =>
      match tick f with
      | None => None
      | Some f' => uninitialized_value_construct_n n' (upd dst d (Some value_init)) (d + 1) f'
      end
  end.

(** [std::move(b + s, b + s + n, b + d)] inside one block: move assignment,
    front to back; [None] for the schedule when an assignment throws. *)
Fixpoint move_range (n : nat) (b : block) (s d : Z) (f : schedule)
    : block * option schedule :=
  match n with
  | O => (b, Some f)
  | S n' =>
      match tick f with
      | None => (b, None)
      | Some f' =>
          move_range n' (upd (upd b d (b s)) s (option_map moved_from (b s)))
            (s + 1) (d + 1) f'
      end
  end.

(** [std::move_backward(b + first, b + first + n, b + d_last)] inside one
    block: move assignment, back to front. *)
Fixpoint move_backward (n : nat) (b : block) (first d_last : Z) (f : schedule)
    : block * option schedule :=
  match n with
  | O => (b, Some f)
  | S n' =>
      match tick f with
      | None => (b, None)
      | Some f' =>
          let s := first + Z.of_nat n' in
          move_backward n' (upd (upd b (d_last - 1) (b s)) s (option_map moved_from (b s)))
            first (d_last - 1) f'
      end
  end.

(** The relocation policy: [if constexpr (std::is_nothrow_move_constructible_v<T>
    || !std::is_copy_constructible_v<T>)]. *)
Definition relocate_by_move : bool :=
  is_nothrow_move_constructible || negb is_copy_constructible.

Definition relocate (n : nat) (src : block) (s : Z) (dst : block) (d : Z)
    (f : schedule) : block * option (block * schedule) :=
  if relocate_by_move then uninitialized_move_n n src s dst d f
  else (src, uninitialized_copy_n n src s dst d f).

(** ** RawMemory *)

Record RawMemory : Type := mkRaw {
  buffer_ : block;
  capacity_ : Z
}.

(** [RawMemory()]. *)
Definition RawMemory_default : RawMemory := mkRaw raw 0.

(** [Allocate(n)] asks [operator new] for [n * sizeof(T)] bytes, a product
    in [size_t]. *)
Definition Allocate_bytes (n : Z) : Z := (n * sizeof_T) mod 2 ^ 64.

(** The number of elements the block [Allocate(n)] obtains has room for:
    [n] unless the product wrapped, fewer when it did. *)
Definition Allocate_slots (n : Z) : Z := Allocate_bytes n / sizeof_T.

(** [RawMemory(capacity)]: [Allocate] calls [operator new] unless
    [capacity] is 0; the constructor records [capacity] whatever room the
    block has.  The callers that pass a count of their own caller compare
    it with [Allocate_slots]. *)
Definition RawMemory_new (capacity : Z) (f : schedule) : option (RawMemory * schedule) :=
  if capacity =? 0 then Some (mkRaw raw capacity, f)
  else match tick f with
       | None => None
       | Some f' => Some (mkRaw raw capacity, f')
       end.

(** [RawMemory::operator=(RawMemory&&)] and the move constructor: the pair
    is (target, source) after the call. *)
Definition RawMemory_move (src : RawMemory) : RawMemory * RawMemory :=
  (mkRaw (buffer_ src) (capacity_ src), mkRaw raw 0).

(** [a.Swap(b)]: the pair is ([a], [b]) after the call. *)
Definition RawMemory_Swap (a b : RawMemory) : RawMemory * RawMemory :=
  (mkRaw (buffer_ b) (capacity_ b), mkRaw (buffer_ a) (capacity_ a)).

(** ** Vector *)

Record Vector : Type := mkVector {
  data_ : RawMemory;
  size_ : Z
}.

Definition Size (v : Vector) : Z := size_ v.
Definition Capacity (v : Vector) : Z := capacity_ (data_ v).

(** [operator[]]: the slot at [index]. *)
Definition at_ (v : Vector) (index : Z) : option T := buffer_ (data_ v) index.

Definition set_buffer (v : Vector) (b : block) : Vector :=
  mkVector (mkRaw b (Capacity v)) (size_ v).

Inductive outcome (A : Type) : Type :=
| Done (v : Vector) (r : A)
| Thrown (v : Vector)
| Undefined.
Arguments Done {A} v r.
Arguments Thrown {A} v.
Arguments Undefined {A}.

(** [Vector()]. *)
Definition Vector_default : Vector := mkVector RawMemory_default 0.

(** How the construction of a vector from a count ends: with a vector,
    with an exception (no object exists), or in undefined behaviour. *)
Inductive construction : Type :=
| Constructed (v : Vector) (f : schedule)
| ConstructorThrew
| ConstructorUndefined.

(** [Vector(size_t size)].  When [size * sizeof(T)] wraps, [operator new]
    returns a block with room for fewer than [size] elements and
    [uninitialized_value_construct_n] constructs [size] of them, past its
    end. *)
Definition Vector_sized (size : Z) (f : schedule) : construction :=
  match RawMemory_new size f with
  | None => ConstructorThrew
  | Some (d, f1) =>
      if Allocate_slots size <? size then ConstructorUndefined
      else
        match uninitialized_value_construct_n (Z.to_nat size) (buffer_ d) 0 f1 with
        | None => ConstructorThrew
        | Some (b, f2) => Constructed (mkVector (mkRaw b (capacity_ d)) size) f2
        end
  end.

(** [Vector(const Vector& other)]. *)
Definition Vector_copy (other : Vector) (f : schedule) : option (Vector * schedule) :=
  match RawMemory_new (Size other) f with
  | None => None
  | Some (d, f1) =>
      match uninitialized_copy_n (Z.to_nat (Size other)) (buffer_ (data_ other)) 0
              (buffer_ d) 0 f1 with
      | None => None
      | Some (b, f2) => Some (mkVector (mkRaw b (capacity_ d)) (Size other), f2)
      end
  end.

(** [Vector(Vector&& other)] and [operator=(Vector&& rhs)] with a distinct
    [rhs]: the pair is (target, source) after the call. *)
Definition Vector_move (other : Vector) : Vector * Vector :=
  let '(d, od) := RawMemory_move (data_ other) in
  (mkVector d (size_ other), mkVector od 0).

(** [Swap(Vector& other)] with a distinct [other], move by move. *)
Definition Swap (this other : Vector) : Vector * Vector :=
  let '(tmp_data, other_data) := RawMemory_move (data_ other) in
  let tmp_size := size_ other in
  let '(other_data', this_data) := RawMemory_move (data_ this) in
  let other_size := size_ this in
  let '(this_data', _) := RawMemory_move tmp_data in
  (mkVector this_data' tmp_size, mkVector other_data' other_size).

(** [Reserve(size_t capacity)]; the result carries the schedule left, for
    [Resize] which goes on after it.  When [capacity * sizeof(T)] wraps,
    the new block has room for fewer than [capacity] elements: the
    relocation writes past its end, or, with few enough elements, the call
    returns a vector whose [capacity_] exceeds its block, so that the
    appends and the [Resize] that rely on it write past its end.  The
    model does not follow such a vector. *)
Definition Reserve (this : Vector) (capacity : Z) (f : schedule) : outcome schedule :=
  if capacity <=? Capacity this then Done this f
  else
    (* std::make_unique<RawMemory<T>>(capacity): the object, then its block *)
    match tick f with
    | None => Thrown this
    | Some f0 =>
        match RawMemory_new capacity f0 with
        | None => Thrown this
        | Some (new_data, f1) =>
            if Allocate_slots capacity <? capacity then Undefined
            else
              match relocate (Z.to_nat (Size this)) (buffer_ (data_ this)) 0
                      (buffer_ new_data) 0 f1 with
              | (old, None) => Thrown (set_buffer this old)
              | (_, Some (b, f2)) =>
                  (* destroy_n of the old elements, then data_.Swap with the new block *)
                  Done (mkVector (fst (RawMemory_Swap (data_ this)
                                         (mkRaw b (capacity_ new_data))))
                          (size_ this)) f2
              end
        end
    end.

(** The capacity of the block a full vector grows into:
    [Size() == 0 ? 1 : Size() * 2]. *)
Definition grown (this : Vector) : Z :=
  if Size this =? 0 then 1 else Size this * 2.

(** [PushBack(Type&& value)]; [x] is the value [T(std::forward<Type>(value))]
    constructs. *)
Definition PushBack (this : Vector) (x : T) (f : schedule) : outcome unit :=
  if Size this <? Capacity this then
    match tick f with
    | None => Thrown this
    | Some _ =>
        Done (mkVector (mkRaw (upd (buffer_ (data_ this)) (Size this) (Some x))
                          (Capacity this)) (size_ this + 1)) tt
    end
  else
    match RawMemory_new (grown this) f with
    | None => Thrown this
    | Some (new_data, f1) =>
        match tick f1 with
        | None => Thrown this
        | Some f2 =>
            match relocate (Z.to_nat (Size this)) (buffer_ (data_ this)) 0
                    (upd (buffer_ new_data) (Size this) (Some x)) 0 f2 with
            | (old, None) => Thrown (set_buffer this old)
            | (_, Some (b, _)) =>
                Done (mkVector (fst (RawMemory_Swap (data_ this) (mkRaw b (capacity_ new_data))))
                        (size_ this + 1)) tt
            end
        end
    end.

(** [EmplaceBack(Args&&... args)]; [x] is the value [T(args...)] constructs;
    the result is the index of the returned reference [data_[size_++]]. *)
Definition EmplaceBack (this : Vector) (x : T) (f : schedule) : outcome Z :=
  if Size this <? Capacity this then
    match tick f with
    | None => Thrown this
    | Some _ =>
        Done (mkVector (mkRaw (upd (buffer_ (data_ this)) (Size this) (Some x))
                          (Capacity this)) (size_ this + 1)) (size_ this)
    end
  else
    match RawMemory_new (grown this) f with
    | None => Thrown this
    | Some (new_data, f1) =>
        match tick f1 with
        | None => Thrown this
        | Some f2 =>
            match relocate (Z.to_nat (Size this)) (buffer_ (data_ this)) 0
                    (upd (buffer_ new_data) (Size this) (Some x)) 0 f2 with
            | (old, None) => Thrown (set_buffer this old)
            | (_, Some (b, _)) =>
                Done (mkVector (fst (RawMemory_Swap (data_ this) (mkRaw b (capacity_ new_data))))
                        (size_ this + 1)) (size_ this)
            end
        end
    end.

(** [PopBack()]: on an empty vector [data_.GetAddress() + Size() - 1] is
    outside the block. *)
Definition PopBack (this : Vector) : outcome unit :=
  if Size this <=? 0 then Undefined
  else
    Done (mkVector (mkRaw (destroy_n 1 (buffer_ (data_ this)) (Size this - 1))
                      (Capacity this)) (size_ this - 1)) tt.

(** [Emplace(const_iterator position, Args&&... args)]; [position] is the
    offset [position - begin()] of the iterator, [x] the value [T(args...)]
    constructs; the result is the offset of the returned iterator.

    - An iterator outside [[begin(), end()]] breaks the precondition.
    - [int pos = position - begin()] narrows the offset.  When [pos] comes
      out negative every path forms [begin() + pos] (or
      [new_data.GetAddress() + pos]) in front of its block.
    - An exception inside the [try] reaches the handler, which passes
      [end()] to [operator delete].  On a vector that is not empty this
      is a pointer [operator new] never returned.  On an empty vector it
      is the block itself: the block is released, [data_] keeps pointing
      to it, and the exception goes on to the caller, who holds a vector
      that nothing but an assignment moved into it can use again (the
      destructor would release the block a second time).  The model has
      no state for a vector over a released block and ends there too. *)
Definition Emplace (this : Vector) (position : Z) (x : T) (f : schedule) : outcome Z :=
  if (position <? 0) || (Size this <? position) then Undefined
  else
    let pos := to_int position in
    if pos <? 0 then Undefined
    else if Size this <? Capacity this then
      if negb (position =? Size this) then
        match tick f with                       (* T tmp_obj(args...) *)
        | None => Undefined
        | Some f1 =>
            match move_tick f1 with             (* new (end()) T(std::forward<T>(data_[Size() - 1])) *)
            | None => Undefined
            | Some f2 =>
                let b0 := buffer_ (data_ this) in
                let last := b0 (Size this - 1) in
                let b1 := upd (upd b0 (Size this) last) (Size this - 1)
                            (option_map moved_from last) in
                match move_backward (Z.to_nat (Size this - 1 - pos)) b1 pos (Size this) f2 with
                | (_, None) => Undefined
                | (b2, Some f3) =>
                    match tick f3 with          (* move assignment of tmp_obj to the slot at pos *)
                    | None => Undefined
                    | Some _ =>
                        Done (mkVector (mkRaw (upd b2 pos (Some x)) (Capacity this))
                                (size_ this + 1)) pos
                    end
                end
            end
        end
      else
        match tick f with                       (* new (end()) T(args...) *)
        | None => Undefined
        | Some _ =>
            Done (mkVector (mkRaw (upd (buffer_ (data_ this)) (Size this) (Some x))
                              (Capacity this)) (size_ this + 1)) pos
        end
    else
      match RawMemory_new (grown this) f with
      | None => Thrown this
      | Some (new_data, f1) =>
          match tick f1 with                    (* new (new_data.GetAddress() + pos) T(args...) *)
          | None => Thrown this
          | Some f2 =>
              match relocate (Z.to_nat pos) (buffer_ (data_ this)) 0
                      (upd (buffer_ new_data) pos (Some x)) 0 f2 with
              | (old, None) => Thrown (set_buffer this old)
              | (old, Some (b1, f3)) =>
                  match relocate (Z.to_nat (Size this - pos)) old pos b1 (pos + 1) f3 with
                  | (old', None) => Thrown (set_buffer this old')
                  | (_, Some (b2, _)) =>
                      Done (mkVector (fst (RawMemory_Swap (data_ this)
                                             (mkRaw b2 (capacity_ new_data))))
                              (size_ this + 1)) pos
                  end
              end
          end
      end.

(** [Insert(const_iterator, const T&)] and [Insert(const_iterator, T&&)]. *)
Definition Insert (this : Vector) (position : Z) (value : T) (f : schedule) : outcome Z :=
  Emplace this position value f.

(** [Erase(const_iterator position)]: an iterator outside [[begin(), end())]
    breaks the precondition; a negative [pos] puts [begin() + pos + 1] in
    front of the block. *)
Definition Erase (this : Vector) (position : Z) (f : schedule) : outcome Z :=
  if (position <? 0) || (Size this <=? position) then Undefined
  else
    let pos := to_int position in
    if pos <? 0 then Undefined
    else
      match move_range (Z.to_nat (Size this - (pos + 1))) (buffer_ (data_ this))
              (pos + 1) pos f with
      | (b, None) => Thrown (set_buffer this b)
      | (b, Some _) =>
          Done (mkVector (mkRaw (upd b (Size this - 1) None) (Capacity this))
                  (size_ this - 1)) pos
      end.

(** [Resize(size_t new_size)]. *)
Definition Resize (this : Vector) (new_size : Z) (f : schedule) : outcome unit :=
  if new_size =? Size this then Done this tt
  else if new_size <? Size this then
    Done (mkVector (mkRaw (destroy_n (Z.to_nat (Size this - new_size))
                             (buffer_ (data_ this)) new_size) (Capacity this))
            new_size) tt
  else
    match Reserve this new_size f with
    | Undefined => Undefined
    | Thrown v => Thrown v
    | Done v f1 =>
        match uninitialized_value_construct_n (Z.to_nat (new_size - Size v))
                (buffer_ (data_ v)) (Size v) f1 with
        | None => Thrown v
        | Some (b, _) => Done (mkVector (mkRaw b (Capacity v)) new_size) tt
        end
    end.

(** The right-hand side of a copy assignment is a reference: to another
    vector, or to the target itself. *)
Inductive rhs_ref : Type :=
| Other (rhs : Vector)
| Self.

Definition deref (this : Vector) (r : rhs_ref) : Vector :=
  match r with
  | Other rhs => rhs
  | Self => this
  end.

(** [for (size_t i = ...; i < ...; ++i) data_[i] = rhs[i];] with [n]
    iterations left; [rhs[i]] is read through the reference at each one. *)
Fixpoint assign_loop (n : nat) (i : Z) (this : Vector) (r : rhs_ref) (f : schedule)
    : Vector * option schedule :=
  match n with
  | O => (this, Some f)
  | S n' =>
      match tick f with
      | None => (this, None)
      | Some f' =>
          assign_loop n' (i + 1)
            (set_buffer this (upd (buffer_ (data_ this)) i (at_ (deref this r) i))) r f'
      end
  end.

(** [operator=(const Vector& rhs)]. *)
Definition copy_assign (this : Vector) (r : rhs_ref) (f : schedule) : outcome unit :=
  if Capacity this <? Size (deref this r) then
    match Vector_copy (deref this r) f with
    | None => Thrown this
    | Some (rhs_copy, _) => Done (fst (Swap this rhs_copy)) tt
    end
  else if Size (deref this r) <? Size this then
    match assign_loop (Z.to_nat (Size (deref this r))) 0 this r f with
    | (t, None) => Thrown t
    | (t, Some _) =>
        let rhs := deref t r in
        Done (mkVector (mkRaw (destroy_n (Z.to_nat (Size t - Size rhs))
                                 (buffer_ (data_ t)) (Size rhs)) (Capacity t))
                (size_ rhs)) tt
    end
  else
    match assign_loop (Z.to_nat (Size this)) 0 this r f with
    | (t, None) => Thrown t
    | (t, Some f1) =>
        let rhs := deref t r in
        match uninitialized_copy_n (Z.to_nat (Size rhs - Size t)) (buffer_ (data_ rhs))
                (Size t) (buffer_ (data_ t)) (Size t) f1 with
        | None => Thrown t
        | Some (b, _) => Done (mkVector (mkRaw b (Capacity t)) (size_ rhs)) tt
        end
    end.

End VectorModel.

Arguments block T : clear implicits.
Arguments RawMemory T : clear implicits.
Arguments Vector T : clear implicits.
Arguments rhs_ref T : clear implicits.
Arguments outcome T A : clear implicits.
Arguments Done {T A} v r.
Arguments Thrown {T A} v.
Arguments Undefined {T A}.
Arguments Self {T}.
Arguments construction T : clear implicits.
Arguments Constructed {T} v f.
Arguments ConstructorThrew {T}.
Arguments ConstructorUndefined {T}.

(** ** Element types and vectors used by the examples *)

(** An integral type: moving it copies it, nothing throws.  Its size is
    that of [char], the least a type has. *)
#[export] Instance IntElement : Element Z := {|
  value_init := 0;
  moved_from := fun x => x;
  is_nothrow_move_constructible := true;
  is_copy_constructible := true;
  sizeof_T := 1
|}.

(** [int], four bytes wide. *)
Inductive int32 : Type :=
| Int32 (n : Z).

#[export] Instance Int32Element : Element int32 := {|
  value_init := Int32 0;
  moved_from := fun x => x;
  is_nothrow_move_constructible := true;
  is_copy_constructible := true;
  sizeof_T := 4
|}.

(** A move-only resource handle whose move constructor is not [noexcept]:
    the copy constructor is deleted, a moved-from handle is hollow. *)
Inductive token : Type :=
| Token (id : Z)
| Hollow.

#[export] Instance TokenElement : Element token := {|
  value_init := Hollow;
  moved_from := fun _ => Hollow;
  is_nothrow_move_constructible := false;
  is_copy_constructible := false;
  sizeof_T := 8
|}.

(** A type with a user-declared copy constructor, which may throw, and no
    move constructor: relocation copies it. *)
Inductive copied : Type :=
| Copied (id : Z).

#[export] Instance CopiedElement : Element copied := {|
  value_init := Copied 0;
  moved_from := fun x => x;
  is_nothrow_move_constructible := false;
  is_copy_constructible := true;
  sizeof_T := 8
|}.

(** The vector holding the elements of [l], with [spare] unused slots. *)
Definition of_list {T : Type} (l : list T) (spare : Z) : Vector T :=
  mkVector (mkRaw (fun i => if i <? 0 then None else nth_error l (Z.to_nat i))
              (Z.of_nat (length l) + spare))
           (Z.of_nat (length l)).

(** The first [n] slots of a vector, as a list. *)
Definition slots {T : Type} `{Element T} (v : Vector T) (n : nat) : list (option T) :=
  map (fun i => at_ v (Z.of_nat i)) (seq 0 n).

(** ** States and predicates of the properties *)

Section Predicates.

Context {T : Type} `{ET : Element T}.

Implicit Types (v : Vector T).

(** The class invariant on the two counters. *)
Definition Inv v : Prop := 0 <= Size v <= Capacity v.

(** The byte size of [n] elements is a [size_t]: the product in
    [Allocate(n)] does not wrap. *)
Definition fits (n : Z) : Prop := 0 < sizeof_T /\ n * sizeof_T < 2 ^ 64.

(** What holds of the vector after a call, whichever way it ends. *)
Definition after {A} (o : outcome T A) (P : Vector T -> Prop) : Prop :=
  match o with
  | Done v _ => P v
  | Thrown v => P v
  | Undefined => True
  end.

(** A call ends with the vector in state [v']: it returned, or it threw. *)
Definition ends {A} (o : outcome T A) (v' : Vector T) : Prop :=
  (exists r, o = Done v' r) \/ o = Thrown v'.

(** The states a program can bring a vector to through the public
    interface.  Arguments of type [size_t] are not negative.  Move
    construction and move assignment produce a target and leave a source;
    a self move assignment leaves the state of a source, a self swap the
    state it started from. *)
Inductive reachable : Vector T -> Prop :=
| reach_default : reachable Vector_default
| reach_sized n f v f' :
    0 <= n -> Vector_sized n f = Constructed v f' -> reachable v
| reach_copy other f v f' :
    reachable other -> Vector_copy other f = Some (v, f') -> reachable v
| reach_move_target other :
    reachable other -> reachable (fst (Vector_move other))
| reach_move_source other :
    reachable other -> reachable (snd (Vector_move other))
| reach_copy_assign v rhs f v' :
    reachable v -> reachable rhs ->
    ends (copy_assign v (Other rhs) f) v' -> reachable v'
| reach_self_assign v f v' :
    reachable v -> ends (copy_assign v Self f) v' -> reachable v'
| reach_Reserve v c f v' :
    reachable v -> 0 <= c -> ends (Reserve v c f) v' -> reachable v'
| reach_Resize v n f v' :
    reachable v -> 0 <= n -> ends (Resize v n f) v' -> reachable v'
| reach_PushBack v x f v' :
    reachable v -> ends (PushBack v x f) v' -> reachable v'
| reach_EmplaceBack v x f v' :
    reachable v -> ends (EmplaceBack v x f) v' -> reachable v'
| reach_PopBack v v' :
    reachable v -> ends (PopBack v) v' -> reachable v'
| reach_Emplace v p x f v' :
    reachable v -> ends (Emplace v p x f) v' -> reachable v'
| reach_Insert v p x f v' :
    reachable v -> ends (Insert v p x f) v' -> reachable v'
| reach_Erase v p f v' :
    reachable v -> ends (Erase v p f) v' -> reachable v'
| reach_Swap_this v other :
    reachable v -> reachable other -> reachable (fst (Swap v other))
| reach_Swap_other v other :
    reachable v -> reachable other -> reachable (snd (Swap v other)).

Definition keeps_capacity v (v' : Vector T) : Prop := Capacity v <= Capacity v'.

(** The capacity is the least power of two that holds the elements. *)
Definition doubled v : Prop :=
  (Size v = 0 /\ Capacity v = 0) \/
  (1 <= Size v /\ exists e, 0 <= e /\ Capacity v = 2 ^ e /\
                            Size v <= Capacity v < 2 * Size v).

End Predicates.

(** [PushBack] of the elements of [l], one after the other, none throwing. *)
Fixpoint PushBack_all {T : Type} `{Element T} (l : list T) (v : Vector T)
    : option (Vector T) :=
  match l with
  | [] => Some v
  | x :: l' =>
      match PushBack v x Never with
      | Done v' _ => PushBack_all l' v'
      | _ => None
      end
  end.

(** The state [Vector<char> v(2147483649)] constructs: [2^31 + 1]
    value-initialized elements in a block of that capacity. *)
Definition large : Vector Z :=
  mkVector
    (mkRaw (fun i => if (0 <=? i) && (i <? 2147483649) then Some 0 else None)
       2147483649)
    2147483649.

(** ** Element access, destruction, and the cost of appending *)

Section Access.

Context {T : Type} `{ET : Element T}.

(** [RawMemory::operator[]]: [assert(index < capacity_)], then the slot;
    [None] when the assertion fails. *)
Definition RawMemory_index (m : RawMemory T) (index : Z) : option (option T) :=
  if index <? capacity_ m then Some (buffer_ m index) else None.

(** The non-const [Vector::operator[]]: [assert(index < size_)], then
    [data_[index]]. *)
Definition Vector_index (v : Vector T) (index : Z) : option (option T) :=
  if index <? size_ v then RawMemory_index (data_ v) index else None.

(** The const [Vector::operator[]]: [data_[index]] alone. *)
Definition Vector_index_const (v : Vector T) (index : Z) : option (option T) :=
  RawMemory_index (data_ v) index.

(** [~Vector()]: [std::destroy_n(data_.GetAddress(), Size())]; the result
    is the block [~RawMemory()] then hands to [operator delete]. *)
Definition Vector_destroy (v : Vector T) : block T :=
  destroy_n (Z.to_nat (Size v)) (buffer_ (data_ v)) 0.



(** The representation invariant: the counters are in order and the live
    objects are exactly those of the slots [[0, Size())]. *)
Definition Rep (v : Vector T) : Prop :=
  0 <= Size v <= Capacity v /\
  forall i, at_ v i <> None <-> 0 <= i < Size v.

End Access.

(** * Properties *)

(** Case analysis on the comparisons a goal or a hypothesis branches on. *)
Ltac cmp :=
  repeat match goal with
  | |- context [Z.eqb ?a ?b] => destruct (Z.eqb_spec a b)
  | |- context [Z.leb ?a ?b] => destruct (Z.leb_spec a b)
  | |- context [Z.ltb ?a ?b] => destruct (Z.ltb_spec a b)
  | H : context [Z.eqb ?a ?b] |- _ => destruct (Z.eqb_spec a b)
  | H : context [Z.leb ?a ?b] |- _ => destruct (Z.leb_spec a b)
  | H : context [Z.ltb ?a ?b] |- _ => destruct (Z.ltb_spec a b)
  end.

Ltac slot := unfold upd; cmp; simpl in *; try reflexivity; try lia; try congruence.

Section Loops.

Context {T : Type} `{ET : Element T}.

Implicit Types (b src dst : block T) (f : schedule).

Lemma destroy_n_spec n : forall b i j,
  destroy_n n b i j =
  if (i <=? j) && (j <? i + Z.of_nat n) then None else b j.
Proof.
  induction n as [|n IH]; intros b i j.
  - simpl. slot.
  - cbn [destroy_n]. rewrite IH. rewrite Nat2Z.inj_succ. slot.
Qed.

Lemma uninitialized_copy_n_spec n : forall src s dst d f b f',
  uninitialized_copy_n n src s dst d f = Some (b, f') ->
  forall j, b j =
    if (d <=? j) && (j <? d + Z.of_nat n) then src (s + (j - d)) else dst j.
Proof.
  induction n as [|n IH]; intros src s dst d f b f' E j.
  - simpl in E. inversion E; subst. slot.
  - cbn [uninitialized_copy_n] in E. destruct (tick f) as [f1|]; [|discriminate].
    rewrite (IH _ _ _ _ _ _ _ E j). rewrite Nat2Z.inj_succ. slot.
    + f_equal. lia.
    + f_equal. lia.
Qed.

Lemma uninitialized_copy_n_Never n : forall src s dst d,
  exists b, uninitialized_copy_n n src s dst d Never = Some (b, Never).
Proof.
  induction n as [|n IH]; intros; simpl; eauto.
Qed.

Lemma uninitialized_value_construct_n_spec n : forall dst d f b f',
  uninitialized_value_construct_n n dst d f = Some (b, f') ->
  forall j, b j =
    if (d <=? j) && (j <? d + Z.of_nat n) then Some value_init else dst j.
Proof.
  induction n as [|n IH]; intros dst d f b f' E j.
  - simpl in E. inversion E; subst. slot.
  - cbn [uninitialized_value_construct_n] in E.
    destruct (tick f) as [f1|]; [|discriminate].
    rewrite (IH _ _ _ _ _ E j). rewrite Nat2Z.inj_succ. slot.
Qed.

Lemma uninitialized_value_construct_n_Never n : forall dst d,
  exists b, uninitialized_value_construct_n n dst d Never = Some (b, Never).
Proof.
  induction n as [|n IH]; intros; simpl; eauto.
Qed.

Lemma move_tick_Never : move_tick Never = Some Never.
Proof. unfold move_tick. destruct is_nothrow_move_constructible; reflexivity. Qed.

Lemma uninitialized_move_n_spec n : forall src s dst d f src' b f',
  uninitialized_move_n n src s dst d f = (src', Some (b, f')) ->
  forall j, b j =
    if (d <=? j) && (j <? d + Z.of_nat n) then src (s + (j - d)) else dst j.
Proof.
  induction n as [|n IH]; intros src s dst d f src' b f' E j.
  - simpl in E. inversion E; subst. slot.
  - cbn [uninitialized_move_n] in E. destruct (move_tick f) as [f1|]; [|discriminate].
    rewrite (IH _ _ _ _ _ _ _ _ E j). rewrite Nat2Z.inj_succ. slot.
    + f_equal. lia.
    + f_equal. lia.
Qed.

Lemma uninitialized_move_n_Never n : forall src s dst d,
  exists src' b, uninitialized_move_n n src s dst d Never = (src', Some (b, Never)).
Proof.
  induction n as [|n IH]; intros; cbn [uninitialized_move_n]; eauto.
  rewrite move_tick_Never. apply IH.
Qed.

(** A move constructor that cannot throw never stops the relocation. *)
Lemma uninitialized_move_n_nothrow n : forall src s dst d f,
  is_nothrow_move_constructible = true ->
  exists src' b, uninitialized_move_n n src s dst d f = (src', Some (b, f)).
Proof.
  induction n as [|n IH]; intros src s dst d f N; cbn [uninitialized_move_n]; eauto.
  unfold move_tick. rewrite N. apply IH, N.
Qed.

Lemma relocate_spec n src s dst d f src' b f' :
  relocate n src s dst d f = (src', Some (b, f')) ->
  forall j, b j =
    if (d <=? j) && (j <? d + Z.of_nat n) then src (s + (j - d)) else dst j.
Proof.
  unfold relocate. destruct relocate_by_move; intros E.
  - eapply uninitialized_move_n_spec, E.
  - inversion E; subst. eapply uninitialized_copy_n_spec; eauto.
Qed.

Lemma relocate_Never n src s dst d :
  exists src' b, relocate n src s dst d Never = (src', Some (b, Never)).
Proof.
  unfold relocate. destruct relocate_by_move.
  - apply uninitialized_move_n_Never.
  - destruct (uninitialized_copy_n_Never n src s dst d) as [b E].
    rewrite E. eauto.
Qed.

(** When the policy copies, or the move constructor cannot throw, a
    relocation that stops leaves the source block as it was. *)
Lemma relocate_stops n src s dst d f src' :
  is_copy_constructible = true \/ is_nothrow_move_constructible = true ->
  relocate n src s dst d f = (src', None) -> src' = src.
Proof.
  unfold relocate, relocate_by_move. intros P E.
  destruct is_nothrow_move_constructible eqn:N.
  - simpl in E. destruct (uninitialized_move_n_nothrow n src s dst d f N) as (a & b & E').
    congruence.
  - destruct P as [P|P]; [|discriminate]. rewrite P in E. simpl in E. congruence.
Qed.

(** A relocation writes to its source only where it moves from. *)
Lemma uninitialized_move_n_source n : forall src s dst d f src' r,
  uninitialized_move_n n src s dst d f = (src', r) ->
  forall j, j < s \/ s + Z.of_nat n <= j -> src' j = src j.
Proof.
  induction n as [|n IH]; intros src s dst d f src' r E j Hj.
  - simpl in E. inversion E; subst. reflexivity.
  - cbn [uninitialized_move_n] in E. destruct (move_tick f) as [f1|].
    + rewrite (IH _ _ _ _ _ _ _ E j) by lia. slot.
    + inversion E; subst. reflexivity.
Qed.

Lemma relocate_source n src s dst d f src' r :
  relocate n src s dst d f = (src', r) ->
  forall j, j < s \/ s + Z.of_nat n <= j -> src' j = src j.
Proof.
  unfold relocate. destruct relocate_by_move; intros E.
  - eapply uninitialized_move_n_source, E.
  - inversion E; subst. reflexivity.
Qed.

(** [std::move] of [n] elements one slot down. *)
Lemma move_range_spec n : forall b s f b' f',
  move_range n b s (s - 1) f = (b', Some f') ->
  forall j, b' j =
    if (s - 1 <=? j) && (j <? s - 1 + Z.of_nat n) then b (j + 1)
    else if (j =? s - 1 + Z.of_nat n) && (0 <? Z.of_nat n)
         then option_map moved_from (b j) else b j.
Proof.
  induction n as [|n IH]; intros b s f b' f' E j.
  - simpl in E. inversion E; subst. slot.
  - cbn [move_range] in E. destruct (tick f) as [f1|]; [|discriminate].
    replace (s - 1 + 1) with (s + 1 - 1) in E by lia.
    rewrite (IH _ _ _ _ _ E j). rewrite Nat2Z.inj_succ. slot.
Qed.

Lemma move_range_Never n : forall b s d,
  exists b', move_range n b s d Never = (b', Some Never).
Proof.
  induction n as [|n IH]; intros; simpl; eauto.
Qed.

(** [std::move_backward] of [n] elements one slot up. *)
Lemma move_backward_spec n : forall b first f b' f',
  move_backward n b first (first + Z.of_nat n + 1) f = (b', Some f') ->
  forall j, b' j =
    if (first + 1 <=? j) && (j <=? first + Z.of_nat n) then b (j - 1)
    else if (j =? first) && (0 <? Z.of_nat n)
         then option_map moved_from (b j) else b j.
Proof.
  induction n as [|n IH]; intros b first f b' f' E j.
  - simpl in E. inversion E; subst. slot.
  - cbn [move_backward] in E. destruct (tick f) as [f1|]; [|discriminate].
    replace (first + Z.of_nat (S n) + 1 - 1) with (first + Z.of_nat n + 1) in E by lia.
    rewrite (IH _ _ _ _ _ E j). rewrite Nat2Z.inj_succ. slot.
    all: try (f_equal; lia).
Qed.

Lemma move_backward_Never n : forall b first d_last,
  exists b', move_backward n b first d_last Never = (b', Some Never).
Proof.
  induction n as [|n IH]; intros; simpl; eauto.
Qed.

End Loops.

(** Symbolic execution of an operation: split on every branch, then
    simplify the equations between results. *)
Ltac crush_eq :=
  repeat match goal with
  | H : Some _ = Some _ |- _ => inversion H; subst; clear H
  | H : (_, _) = (_, _) |- _ => inversion H; subst; clear H
  | H : Done _ _ = Done _ _ |- _ => inversion H; subst; clear H
  | H : Thrown _ = Thrown _ |- _ => inversion H; subst; clear H
  | H : None = Some _ |- _ => discriminate H
  | H : Some _ = None |- _ => discriminate H
  | H : Done _ _ = _ |- _ => discriminate H
  | H : Thrown _ = _ |- _ => discriminate H
  | H : Undefined = _ |- _ => discriminate H
  | H : Constructed _ _ = Constructed _ _ |- _ => inversion H; subst; clear H
  | H : ConstructorThrew = _ |- _ => discriminate H
  | H : ConstructorUndefined = _ |- _ => discriminate H
  end.

Ltac branch :=
  match goal with
  | H : context [match ?x with _ => _ end] |- _ => destruct x eqn:?
  | |- context [match ?x with _ => _ end] => destruct x eqn:?
  end.

Ltac run := repeat (crush_eq; try branch); crush_eq.

Section Shapes.

Context {T : Type} `{ET : Element T}.

Implicit Types (v : Vector T) (f : schedule) (x : T).

Lemma set_buffer_same v : set_buffer v (buffer_ (data_ v)) = v.
Proof. destruct v as [[b c] n]. reflexivity. Qed.

Lemma Reserve_shape v c f :
  match Reserve v c f with
  | Done v' _ => Size v' = Size v /\
      (c <= Capacity v /\ v' = v \/ Capacity v < c /\ Capacity v' = c)
  | Thrown v' => Size v' = Size v /\ Capacity v' = Capacity v /\ Capacity v < c
  | Undefined => Capacity v < c /\ Allocate_slots c < c
  end.
Proof.
  unfold Reserve, RawMemory_new, set_buffer, Size, Capacity.
  run; simpl; cmp; auto; try lia; intuition lia.
Qed.

Lemma PushBack_shape v x f :
  match PushBack v x f with
  | Done v' _ => Size v' = Size v + 1 /\
      (Size v < Capacity v /\ Capacity v' = Capacity v \/
       Capacity v <= Size v /\ Capacity v' = grown v)
  | Thrown v' => Size v' = Size v /\ Capacity v' = Capacity v
  | Undefined => False
  end.
Proof.
  unfold PushBack, RawMemory_new, set_buffer, grown, Size, Capacity.
  run; simpl; cmp; auto; try lia; intuition lia.
Qed.

Lemma EmplaceBack_shape v x f :
  match EmplaceBack v x f with
  | Done v' r => Size v' = Size v + 1 /\ r = Size v /\
      (Size v < Capacity v /\ Capacity v' = Capacity v \/
       Capacity v <= Size v /\ Capacity v' = grown v)
  | Thrown v' => Size v' = Size v /\ Capacity v' = Capacity v
  | Undefined => False
  end.
Proof.
  unfold EmplaceBack, RawMemory_new, set_buffer, grown, Size, Capacity.
  run; simpl; cmp; auto; try lia; intuition lia.
Qed.

Lemma Emplace_shape v p x f :
  match Emplace v p x f with
  | Done v' r => Size v' = Size v + 1 /\ r = to_int p /\ 0 <= r /\ 0 <= p <= Size v /\
      (Size v < Capacity v /\ Capacity v' = Capacity v \/
       Capacity v <= Size v /\ Capacity v' = grown v)
  | Thrown v' => Size v' = Size v /\ Capacity v' = Capacity v /\ Capacity v <= Size v
  | Undefined => True
  end.
Proof.
  unfold Emplace, RawMemory_new, set_buffer, grown, Size, Capacity.
  run; simpl; cmp; simpl in *; auto; try lia; try discriminate; intuition lia.
Qed.

Lemma Erase_shape v p f :
  match Erase v p f with
  | Done v' r => Size v' = Size v - 1 /\ Capacity v' = Capacity v /\
                 r = to_int p /\ 0 <= r /\ 0 <= p < Size v
  | Thrown v' => Size v' = Size v /\ Capacity v' = Capacity v
  | Undefined => True
  end.
Proof.
  unfold Erase, set_buffer, Size, Capacity.
  run; simpl; cmp; simpl in *; auto; try lia; try discriminate; intuition lia.
Qed.

Lemma PopBack_shape v :
  match PopBack v with
  | Done v' _ => Size v' = Size v - 1 /\ Capacity v' = Capacity v /\ 0 < Size v
  | Thrown v' => False
  | Undefined => Size v <= 0
  end.
Proof.
  unfold PopBack, Size, Capacity. run; simpl; cmp; auto; try lia.
Qed.

Lemma Resize_shape v n f :
  match Resize v n f with
  | Done v' _ => Size v' = n /\
      (n <= Size v /\ Capacity v' = Capacity v \/
       Size v < n /\ Capacity v' = Z.max (Capacity v) n)
  | Thrown v' => Size v' = Size v /\ Size v < n /\
      (Capacity v' = Capacity v \/ Capacity v' = n /\ Capacity v < n)
  | Undefined => Size v < n /\ Capacity v < n /\ Allocate_slots n < n
  end.
Proof.
  unfold Resize. cmp.
  - unfold Size. split; auto. left. unfold Size in *. lia.
  - simpl. unfold Size, Capacity in *. simpl. split; auto. left. lia.
  - pose proof (Reserve_shape v n f) as R.
    destruct (Reserve v n f) as [v' f1|v'|]; [|intuition lia|intuition lia].
    destruct R as [S R].
    destruct (uninitialized_value_construct_n _ _ _ _) as [[b f2]|].
    + unfold Size, Capacity in *. simpl. split; auto. right.
      destruct R as [[? ->]|[? ?]]; lia.
    + destruct R as [[? ->]|[? ?]]; intuition lia.
Qed.

Lemma assign_loop_shape n : forall i v r f t o,
  assign_loop n i v r f = (t, o) ->
  Size t = Size v /\ Capacity t = Capacity v /\
  Size (deref t r) = Size (deref v r).
Proof.
  induction n as [|n IH]; intros i v r f t o E.
  - simpl in E. inversion E; subst. auto.
  - cbn [assign_loop] in E. destruct (tick f) as [f1|].
    + apply IH in E. destruct E as (E1 & E2 & E3).
      rewrite E1, E2, E3. destruct r; auto.
    + inversion E; subst. auto.
Qed.

Lemma Vector_copy_shape (other : Vector T) f c f' :
  Vector_copy other f = Some (c, f') ->
  Size c = Size other /\ Capacity c = Size other.
Proof.
  unfold Vector_copy, RawMemory_new, Size, Capacity. intros E.
  run; simpl; auto.
Qed.

Lemma Swap_fst (this other : Vector T) :
  fst (Swap this other) = mkVector (mkRaw (buffer_ (data_ other)) (capacity_ (data_ other))) (size_ other).
Proof. reflexivity. Qed.

Lemma Swap_snd (this other : Vector T) :
  snd (Swap this other) = mkVector (mkRaw (buffer_ (data_ this)) (capacity_ (data_ this))) (size_ this).
Proof. reflexivity. Qed.

Lemma copy_assign_shape v r f :
  match copy_assign v r f with
  | Done v' _ => Size v' = Size (deref v r) /\
      (Capacity v < Size (deref v r) /\ Capacity v' = Size (deref v r) \/
       Size (deref v r) <= Capacity v /\ Capacity v' = Capacity v)
  | Thrown v' => Size v' = Size v /\ Capacity v' = Capacity v
  | Undefined => False
  end.
Proof.
  unfold copy_assign. cmp.
  - destruct (Vector_copy _ _) as [[c f1]|] eqn:E; auto.
    apply Vector_copy_shape in E. rewrite Swap_fst.
    unfold Size, Capacity in *. simpl. intuition lia.
  - destruct (assign_loop _ _ _ _ _) as [t [f1|]] eqn:E;
      apply assign_loop_shape in E; destruct E as (E1 & E2 & E3).
    + unfold Size, Capacity in *. simpl. split; [exact E3|]. right. lia.
    + auto.
  - destruct (assign_loop _ _ _ _ _) as [t [f1|]] eqn:E;
      apply assign_loop_shape in E; destruct E as (E1 & E2 & E3).
    + destruct (uninitialized_copy_n _ _ _ _ _ _) as [[b f2]|]; [|auto].
      unfold Size, Capacity in *. simpl. split; [exact E3|]. right. lia.
    + auto.
Qed.

End Shapes.

(** * The class invariant *)

Section Reachable.

Context {T : Type} `{ET : Element T}.

Implicit Types (v : Vector T) (f : schedule) (x : T).

Lemma Vector_sized_shape n f v f' :
  Vector_sized n f = Constructed v f' -> Size v = n /\ Capacity v = n.
Proof.
  unfold Vector_sized, RawMemory_new, Size, Capacity. intros E.
  run; simpl; auto.
Qed.

(** From the shape of an outcome to a fact about the state a call ends in. *)
Ltac by_shape S :=
  match goal with
  | E : ends ?o _ |- _ =>
      let r := fresh "r" in
      pose proof S as Sh;
      destruct E as [[r E]|E]; rewrite E in Sh
  end.

Lemma reachable_Inv v : reachable v -> Inv v.
Proof.
  unfold Inv.
  induction 1 as
    [ | n f v f' Hn E | o f v f' _ IH E | o _ IH | o _ IH
    | v rhs f v' _ IH _ IHr E | v f v' _ IH E
    | v c f v' _ IH Hc E | v n f v' _ IH Hn E
    | v x f v' _ IH E | v x f v' _ IH E | v v' _ IH E
    | v p x f v' _ IH E | v p x f v' _ IH E | v p f v' _ IH E
    | v o _ IHv _ IHo | v o _ IHv _ IHo ].
  - unfold Size, Capacity. simpl. lia.
  - apply Vector_sized_shape in E. lia.
  - apply Vector_copy_shape in E. lia.
  - unfold Size, Capacity in *. simpl. lia.
  - unfold Size, Capacity. simpl. lia.
  - by_shape (copy_assign_shape v (Other rhs) f); simpl in Sh; lia.
  - by_shape (copy_assign_shape v Self f); simpl in Sh; lia.
  - by_shape (Reserve_shape v c f); [|lia].
    destruct Sh as [S [[? ->]|[? C]]]; lia.
  - by_shape (Resize_shape v n f); lia.
  - by_shape (PushBack_shape v x f); unfold grown in Sh; cmp; lia.
  - by_shape (EmplaceBack_shape v x f); unfold grown in Sh; cmp; lia.
  - by_shape (PopBack_shape v); [lia|contradiction].
  - by_shape (Emplace_shape v p x f); unfold grown in Sh; cmp; lia.
  - unfold Insert in E.
    by_shape (Emplace_shape v p x f); unfold grown in Sh; cmp; lia.
  - by_shape (Erase_shape v p f); lia.
  - rewrite Swap_fst. unfold Size, Capacity in *. simpl. lia.
  - rewrite Swap_snd. unfold Size, Capacity in *. simpl. lia.
Qed.

(** C7. Every state a vector reaches from a constructor through the public
    operations (construction, copy and move, assignment, [Reserve],
    [Resize], [PushBack], [EmplaceBack], [PopBack], [Insert], [Emplace],
    [Erase], [Swap]), by normal return or by an exception, has
    [Size() <= Capacity()]. *)
Theorem size_le_capacity v : reachable v -> Size v <= Capacity v.
Proof. intros R. apply reachable_Inv in R. unfold Inv in R. lia. Qed.

End Reachable.

(** * Capacity never shrinks *)

Section Monotone.

Context {T : Type} `{ET : Element T}.

Implicit Types (v : Vector T) (f : schedule) (x : T).

(** C8. Whatever the arguments and whichever way the call ends, [Reserve],
    [Resize], [PushBack], [EmplaceBack], [PopBack], [Insert], [Emplace],
    [Erase] and copy assignment (from another vector or from itself) leave
    a capacity that is at least the capacity before the call. *)
Theorem capacity_monotone v :
  0 <= Size v ->
  (forall c f, after (Reserve v c f) (keeps_capacity v)) /\
  (forall n f, after (Resize v n f) (keeps_capacity v)) /\
  (forall x f, after (PushBack v x f) (keeps_capacity v)) /\
  (forall x f, after (EmplaceBack v x f) (keeps_capacity v)) /\
  after (PopBack v) (keeps_capacity v) /\
  (forall p x f, after (Insert v p x f) (keeps_capacity v)) /\
  (forall p x f, after (Emplace v p x f) (keeps_capacity v)) /\
  (forall p f, after (Erase v p f) (keeps_capacity v)) /\
  (forall r f, after (copy_assign v r f) (keeps_capacity v)).
Proof.
  intros Hs. unfold keeps_capacity, after, Insert.
  repeat split; intros.
  - pose proof (Reserve_shape v c f) as Sh.
    destruct (Reserve v c f); [|lia|exact I].
    destruct Sh as [_ [[? ->]|[? ?]]]; lia.
  - pose proof (Resize_shape v n f) as Sh.
    destruct (Resize v n f); lia || exact I.
  - pose proof (PushBack_shape v x f) as Sh. unfold grown in Sh.
    destruct (PushBack v x f); cmp; lia || exact I.
  - pose proof (EmplaceBack_shape v x f) as Sh. unfold grown in Sh.
    destruct (EmplaceBack v x f); cmp; lia || exact I.
  - pose proof (PopBack_shape v) as Sh.
    destruct (PopBack v); lia || exact I.
  - pose proof (Emplace_shape v p x f) as Sh. unfold grown in Sh.
    destruct (Emplace v p x f); cmp; lia || exact I.
  - pose proof (Emplace_shape v p x f) as Sh. unfold grown in Sh.
    destruct (Emplace v p x f); cmp; lia || exact I.
  - pose proof (Erase_shape v p f) as Sh.
    destruct (Erase v p f); lia || exact I.
  - pose proof (copy_assign_shape v r f) as Sh.
    destruct (copy_assign v r f); lia || exact I.
Qed.

End Monotone.

Lemma capacity_monotone_witness :
  0 <= Size (of_list [10; 20; 30] 0) /\
  after (PushBack (of_list [10; 20; 30] 0) 40 Never)
        (keeps_capacity (of_list [10; 20; 30] 0)).
Proof.
  split; [vm_compute; discriminate|].
  apply (capacity_monotone (of_list [10; 20; 30] 0)). vm_compute; discriminate.
Defined.

(** * Failure during relocation *)

Section Strong.

Context {T : Type} `{ET : Element T}.

Implicit Types (v : Vector T) (f : schedule) (x : T).

Lemma relocate_twice_stops n m (src : block T) s dst d f old b1 f1 s' d' old' :
  is_copy_constructible = true \/ is_nothrow_move_constructible = true ->
  relocate n src s dst d f = (old, Some (b1, f1)) ->
  relocate m old s' b1 d' f1 = (old', None) ->
  old' = src.
Proof.
  intros P E1 E2.
  destruct is_nothrow_move_constructible eqn:N.
  - exfalso. unfold relocate, relocate_by_move in E2. rewrite N in E2. simpl in E2.
    destruct (uninitialized_move_n_nothrow m old s' b1 d' f1 N) as (a & b & E').
    congruence.
  - destruct P as [P|P]; [|discriminate].
    unfold relocate, relocate_by_move in *. rewrite N, P in *. simpl in *.
    congruence.
Qed.

(** C1, as the code has it.  Let [T] be copy-constructible, or have a move
    constructor that cannot throw.  When [Reserve], [PushBack],
    [EmplaceBack], or [Emplace] and [Insert] on a full vector, throw, the
    vector is exactly as it was before the call; so it is, for every [T],
    when copy assignment throws with [rhs.Size() > Capacity()]. *)
Theorem strong_guarantee v :
  is_copy_constructible = true \/ is_nothrow_move_constructible = true ->
  (forall c f v', Reserve v c f = Thrown v' -> v' = v) /\
  (forall x f v', PushBack v x f = Thrown v' -> v' = v) /\
  (forall x f v', EmplaceBack v x f = Thrown v' -> v' = v) /\
  (forall p x f v', Emplace v p x f = Thrown v' -> v' = v) /\
  (forall p x f v', Insert v p x f = Thrown v' -> v' = v) /\
  (forall r f v', Capacity v < Size (deref v r) ->
                  copy_assign v r f = Thrown v' -> v' = v).
Proof.
  intros P. unfold Insert.
  assert (R1 : forall n s dst d f old,
             relocate n (buffer_ (data_ v)) s dst d f = (old, None) ->
             set_buffer v old = v).
  { intros n s dst d f old E. apply (relocate_stops _ _ _ _ _ _ _ P) in E.
    subst old. apply set_buffer_same. }
  repeat split.
  - intros c f v'. unfold Reserve. intros E. run; eauto.
  - intros x f v'. unfold PushBack. intros E. run; eauto.
  - intros x f v'. unfold EmplaceBack. intros E. run; eauto.
  - intros p x f v'. unfold Emplace. intros E. run; eauto.
    match goal with
    | E1 : relocate _ _ _ _ _ _ = (_, Some _), E2 : relocate _ _ _ _ _ _ = (_, None) |- _ =>
        rewrite (relocate_twice_stops _ _ _ _ _ _ _ _ _ _ _ _ _ P E1 E2)
    end.
    apply set_buffer_same.
  - intros p x f v'. unfold Emplace. intros E. run; eauto.
    match goal with
    | E1 : relocate _ _ _ _ _ _ = (_, Some _), E2 : relocate _ _ _ _ _ _ = (_, None) |- _ =>
        rewrite (relocate_twice_stops _ _ _ _ _ _ _ _ _ _ _ _ _ P E1 E2)
    end.
    apply set_buffer_same.
  - intros r f v' C. unfold copy_assign.
    destruct (Z.ltb_spec (Capacity v) (Size (deref v r))); [|lia].
    intros E. run; auto.
Qed.

End Strong.

Lemma strong_guarantee_witness :
  (@is_copy_constructible copied _ = true \/
   @is_nothrow_move_constructible copied _ = true) /\
  exists v',
    PushBack (of_list [Copied 1; Copied 2] 0) (Copied 3) (After 3) = Thrown v' /\
    v' = of_list [Copied 1; Copied 2] 0.
Proof.
  split; [left; reflexivity|].
  destruct (PushBack (of_list [Copied 1; Copied 2] 0) (Copied 3) (After 3))
    as [v' r|v'|] eqn:E.
  - vm_compute in E. discriminate E.
  - exists v'. split; [reflexivity|].
    refine (proj1 (proj2 (strong_guarantee (of_list [Copied 1; Copied 2] 0) _))
              (Copied 3) (After 3) v' E).
    left; reflexivity.
  - vm_compute in E. discriminate E.
Defined.

(** C1 at a move-only element type whose move constructor throws: the
    block of two tokens is full, [PushBack] allocates, constructs the new
    element, moves the first token and throws on the second move.  The
    first slot is left hollow. *)
Lemma strong_guarantee_move_only_counterexample :
  slots (of_list [Token 1; Token 2] 0) 2 = [Some (Token 1); Some (Token 2)] /\
  match PushBack (of_list [Token 1; Token 2] 0) (Token 3) (After 3) with
  | Thrown v' =>
      Size v' = 2 /\ Capacity v' = 2 /\
      slots v' 2 = [Some Hollow; Some (Token 2)]
  | _ => False
  end.
Proof. vm_compute. repeat split. Qed.

(** * Growth policy *)

(** Below [2^31] the narrowing to [int] keeps the offset. *)
Lemma to_int_small p : 0 <= p < 2 ^ 31 -> to_int p = p.
Proof.
  intros H. unfold to_int. rewrite Z.mod_small; lia.
Qed.

Section Growth.

Context {T : Type} `{ET : Element T}.

Implicit Types (v : Vector T) (f : schedule) (x : T).

Lemma grown_max v : Inv v -> Capacity v <= Size v ->
  grown v = Z.max 1 (2 * Capacity v).
Proof. unfold Inv, grown. intros I C. cmp; lia. Qed.

Lemma PushBack_Never v x : exists v', PushBack v x Never = Done v' tt.
Proof.
  unfold PushBack, RawMemory_new.
  destruct (Size v <? Capacity v); simpl; eauto.
  destruct (grown v =? 0); simpl;
    match goal with
    | |- context [relocate ?n ?a ?b ?c ?d Never] =>
        destruct (relocate_Never n a b c d) as (s' & b' & ->)
    end; eauto.
Qed.

Lemma EmplaceBack_Never v x : exists v', EmplaceBack v x Never = Done v' (Size v).
Proof.
  unfold EmplaceBack, RawMemory_new.
  destruct (Size v <? Capacity v); simpl; eauto.
  destruct (grown v =? 0); simpl;
    match goal with
    | |- context [relocate ?n ?a ?b ?c ?d Never] =>
        destruct (relocate_Never n a b c d) as (s' & b' & ->)
    end; eauto.
Qed.

(** At a position [int pos] can hold, [Emplace] returns when nothing
    throws, with a spare slot or from a full vector. *)
Lemma Emplace_Never v p x :
  0 <= p <= Size v -> p < 2 ^ 31 ->
  exists v', Emplace v p x Never = Done v' p.
Proof.
  intros Hp Hs. assert (Q : to_int p = p) by (apply to_int_small; lia).
  unfold Emplace, RawMemory_new. rewrite Q.
  destruct (Z.ltb_spec p 0); [lia|]. destruct (Z.ltb_spec (Size v) p); [lia|].
  cbn [orb]. destruct (Size v <? Capacity v).
  - destruct (negb (p =? Size v)); cbn [tick]; [|eauto].
    rewrite move_tick_Never.
    match goal with
    | |- context [move_backward ?n ?a ?b ?c Never] =>
        destruct (move_backward_Never n a b c) as (b' & ->)
    end. cbn [tick]. eauto.
  - destruct (grown v =? 0); cbn [tick];
      repeat match goal with
      | |- context [relocate ?n ?a ?b ?c ?d Never] =>
          destruct (relocate_Never n a b c d) as (? & ? & ->)
      end; eauto.
Qed.

Lemma PushBack_doubled v x v' r :
  doubled v -> PushBack v x Never = Done v' r ->
  Size v' = Size v + 1 /\ doubled v'.
Proof.
  intros D E. pose proof (PushBack_shape v x Never) as Sh. rewrite E in Sh.
  destruct Sh as [S C]. split; [exact S|]. right.
  destruct D as [[S0 C0]|[S1 (e & He & Ce & B)]].
  - split; [lia|]. exists 0. unfold grown in C. rewrite S0 in C. simpl in C.
    change (2 ^ 0) with 1. lia.
  - split; [lia|]. destruct C as [[? C]|[? C]].
    + exists e. lia.
    + exists (e + 1). unfold grown in C.
      destruct (Z.eqb_spec (Size v) 0); [lia|].
      rewrite Z.pow_add_r by lia. change (2 ^ 1) with 2. lia.
Qed.

Lemma PushBack_all_doubled l : forall v,
  doubled v ->
  exists v', PushBack_all l v = Some v' /\
             Size v' = Size v + Z.of_nat (length l) /\ doubled v'.
Proof.
  induction l as [|x l IH]; intros v D.
  - exists v. simpl. repeat split; auto. lia.
  - cbn [PushBack_all]. destruct (PushBack_Never v x) as [v1 E]. rewrite E.
    destruct (PushBack_doubled _ _ _ _ D E) as [S1 D1].
    destruct (IH v1 D1) as (v' & E' & S' & D'). exists v'.
    repeat split; auto. cbn [length]. lia.
Qed.

(** C2. A [PushBack], [EmplaceBack] or [Emplace] that finds the vector
    full ([Size() <= Capacity()] being the invariant) returns with capacity
    [max(1, 2 * old capacity)]; when nothing throws, [PushBack] and
    [EmplaceBack] do return, and so does [Emplace] at every position of
    [[begin(), end()]] whose offset [int pos] can hold.  After [k >= 1]
    [PushBack] calls on an empty vector the capacity is [2 ^ e], holds the
    [k] elements, and no smaller power of two does. *)
Theorem growth_policy :
  (forall v x f v' r, Inv v -> Capacity v <= Size v ->
     PushBack v x f = Done v' r -> Capacity v' = Z.max 1 (2 * Capacity v)) /\
  (forall v x f v' r, Inv v -> Capacity v <= Size v ->
     EmplaceBack v x f = Done v' r -> Capacity v' = Z.max 1 (2 * Capacity v)) /\
  (forall v p x f v' r, Inv v -> Capacity v <= Size v ->
     Emplace v p x f = Done v' r -> Capacity v' = Z.max 1 (2 * Capacity v)) /\
  (forall v x, exists v', PushBack v x Never = Done v' tt) /\
  (forall v x, exists v', EmplaceBack v x Never = Done v' (Size v)) /\
  (forall v p x, 0 <= p <= Size v -> p < 2 ^ 31 ->
     exists v', Emplace v p x Never = Done v' p) /\
  (forall l : list T, l <> [] ->
     exists v, PushBack_all l Vector_default = Some v /\
       Size v = Z.of_nat (length l) /\
       exists e, 0 <= e /\ Capacity v = 2 ^ e /\
         Z.of_nat (length l) <= 2 ^ e /\
         forall e', 0 <= e' -> Z.of_nat (length l) <= 2 ^ e' -> 2 ^ e <= 2 ^ e').
Proof.
  repeat split.
  - intros v x f v' r I C E. pose proof (PushBack_shape v x f) as Sh.
    rewrite E in Sh. rewrite <- grown_max by assumption. lia.
  - intros v x f v' r I C E. pose proof (EmplaceBack_shape v x f) as Sh.
    rewrite E in Sh. rewrite <- grown_max by assumption. lia.
  - intros v p x f v' r I C E. pose proof (Emplace_shape v p x f) as Sh.
    rewrite E in Sh. rewrite <- grown_max by assumption. lia.
  - intros v x. apply PushBack_Never.
  - intros v x. apply EmplaceBack_Never.
  - intros v p x. apply Emplace_Never.
  - intros l Hl.
    destruct (PushBack_all_doubled l Vector_default) as (v & E & S & D).
    { left. split; reflexivity. }
    change (Size Vector_default) with 0 in S.
    exists v. split; [exact E|]. split; [lia|].
    assert (1 <= Z.of_nat (length l)) by (destruct l; [congruence|cbn [length]; lia]).
    destruct D as [[S0 _]|[_ (e & He & Ce & B)]]; [lia|].
    exists e. repeat split; try lia.
    intros e' He' K. apply Z.pow_le_mono_r; [lia|].
    assert (L : 2 ^ e < 2 ^ (e' + 1)).
    { rewrite Z.pow_add_r by lia. change (2 ^ 1) with 2. lia. }
    assert (e < e' + 1) by (apply (Z.pow_lt_mono_r_iff 2); lia).
    lia.
Qed.

End Growth.

Lemma growth_policy_witness :
  Inv (of_list [10; 20] 0) /\ Capacity (of_list [10; 20] 0) <= Size (of_list [10; 20] 0) /\
  [0; 1; 2; 3; 4] <> [] /\
  (forall v' r, PushBack (of_list [10; 20] 0) 30 Never = Done v' r -> Capacity v' = 4) /\
  (exists v, PushBack_all [0; 1; 2; 3; 4] Vector_default = Some v /\ Capacity v = 8) /\
  0 <= 1 <= Size (of_list [10; 20] 0) /\ 1 < 2 ^ 31 /\
  exists v', Emplace (of_list [10; 20] 0) 1 15 Never = Done v' 1 /\ Capacity v' = 4.
Proof.
  assert (I : Inv (of_list [10; 20] 0)) by (unfold Inv; vm_compute; split; discriminate).
  assert (C : Capacity (of_list [10; 20] 0) <= Size (of_list [10; 20] 0))
    by (vm_compute; discriminate).
  assert (N : [0; 1; 2; 3; 4] <> []) by discriminate.
  assert (P : 0 <= 1 <= Size (of_list [10; 20] 0)) by (vm_compute; split; discriminate).
  assert (B : 1 < 2 ^ 31) by reflexivity.
  split; [exact I|]. split; [exact C|]. split; [exact N|]. split; [|split].
  - intros v' r E.
    exact (proj1 growth_policy (of_list [10; 20] 0) 30 Never v' r I C E).
  - destruct (proj2 (proj2 (proj2 (proj2 (proj2 (proj2 growth_policy)))))
                [0; 1; 2; 3; 4] N)
      as (v & E & S & e & He & Ce & _).
    exists v. split; [exact E|].
    vm_compute in E. inversion E. reflexivity.
  - split; [exact P|]. split; [exact B|].
    destruct (proj1 (proj2 (proj2 (proj2 (proj2 (proj2 growth_policy)))))
                (of_list [10; 20] 0) 1 15 P B) as [v' E].
    exists v'. split; [exact E|].
    exact (proj1 (proj2 (proj2 growth_policy)) (of_list [10; 20] 0) 1 15 Never v' 1 I C E).
Defined.

(** * Copy assignment *)

Section CopyAssign.

Context {T : Type} `{ET : Element T}.

Implicit Types (v a rhs : Vector T) (f : schedule).

Lemma at_set_buffer v b j : at_ (set_buffer v b) j = b j.
Proof. reflexivity. Qed.

Lemma assign_loop_Never n : forall i v r,
  exists t, assign_loop n i v r Never = (t, Some Never).
Proof.
  induction n as [|n IH]; intros; simpl; eauto.
Qed.

Lemma assign_loop_other n : forall i v rhs f t f',
  assign_loop n i v (Other rhs) f = (t, Some f') ->
  forall j, at_ t j =
    if (i <=? j) && (j <? i + Z.of_nat n) then at_ rhs j else at_ v j.
Proof.
  induction n as [|n IH]; intros i v rhs f t f' E j.
  - simpl in E. inversion E; subst. slot.
  - cbn [assign_loop] in E. destruct (tick f) as [f1|]; [|discriminate].
    rewrite (IH _ _ _ _ _ _ E j). rewrite at_set_buffer, Nat2Z.inj_succ.
    cbn [deref]. unfold at_. slot.
Qed.

(** Assigning a vector to itself writes to every slot the value it holds,
    whether the loop finishes or stops. *)
Lemma assign_loop_self n : forall i v f t o,
  assign_loop n i v Self f = (t, o) ->
  forall j, at_ t j = at_ v j.
Proof.
  induction n as [|n IH]; intros i v f t o E j.
  - simpl in E. inversion E; subst. reflexivity.
  - cbn [assign_loop] in E. destruct (tick f) as [f1|].
    + rewrite (IH _ _ _ _ _ E j). rewrite at_set_buffer.
      cbn [deref]. unfold at_. slot.
    + inversion E; subst. reflexivity.
Qed.

Lemma Vector_copy_spec (other : Vector T) f c f' :
  Vector_copy other f = Some (c, f') ->
  forall j, at_ c j =
    if (0 <=? j) && (j <? Size other) then at_ other j else None.
Proof.
  unfold Vector_copy, RawMemory_new. intros E j.
  assert (K : forall b f1 f2,
    uninitialized_copy_n (Z.to_nat (Size other)) (buffer_ (data_ other)) 0 raw 0 f1
      = Some (b, f2) ->
    b j = if (0 <=? j) && (j <? Size other) then at_ other j else None).
  { intros b f1 f2 U. rewrite (uninitialized_copy_n_spec _ _ _ _ _ _ _ _ U j).
    unfold at_, raw. cmp; simpl; try reflexivity; try lia.
    f_equal. lia. }
  run; unfold at_ at 1; simpl; eapply K; eassumption.
Qed.

Lemma Vector_copy_Never (other : Vector T) :
  exists c, Vector_copy other Never = Some (c, Never).
Proof.
  unfold Vector_copy, RawMemory_new.
  destruct (Size other =? 0); simpl;
    match goal with
    | |- context [uninitialized_copy_n ?n ?a ?b ?c ?d Never] =>
        destruct (uninitialized_copy_n_Never n a b c d) as (b' & ->)
    end; eauto.
Qed.

Lemma copy_assign_Never a r : exists a', copy_assign a r Never = Done a' tt.
Proof.
  unfold copy_assign.
  destruct (Capacity a <? Size (deref a r)).
  - destruct (Vector_copy_Never (deref a r)) as [c ->]. eauto.
  - destruct (Size (deref a r) <? Size a).
    + destruct (assign_loop_Never (Z.to_nat (Size (deref a r))) 0 a r) as [t ->]. eauto.
    + destruct (assign_loop_Never (Z.to_nat (Size a)) 0 a r) as [t ->].
      match goal with
      | |- context [uninitialized_copy_n ?n ?a ?b ?c ?d Never] =>
          destruct (uninitialized_copy_n_Never n a b c d) as (b' & ->)
      end. eauto.
Qed.

(** C3. For a target whose size is a [size_t], [a = rhs] returns when nothing throws, and when it returns [a] has
    the size of [rhs] and its elements.  With [rhs.Size() > Capacity()] the
    storage is that of a fresh copy: the capacity is [rhs.Size()].
    Otherwise the capacity stays, the slots of a surplus tail hold no
    object any more, and no slot past both sizes is touched. *)
Theorem copy_assign_spec a rhs :
  0 <= Size a ->
  (exists a', copy_assign a (Other rhs) Never = Done a' tt) /\
  forall f a' r, copy_assign a (Other rhs) f = Done a' r ->
    Size a' = Size rhs /\
    (forall i, 0 <= i < Size rhs -> at_ a' i = at_ rhs i) /\
    (Capacity a < Size rhs -> Capacity a' = Size rhs) /\
    (Size rhs <= Capacity a ->
       Capacity a' = Capacity a /\
       (forall i, Size rhs <= i < Size a -> at_ a' i = None) /\
       (forall i, Size rhs <= i -> Size a <= i -> at_ a' i = at_ a i)).
Proof.
  intros Ha. split; [apply copy_assign_Never|].
  intros f a' r E.
  pose proof (copy_assign_shape a (Other rhs) f) as Sh. rewrite E in Sh.
  cbn [deref] in Sh. destruct Sh as [S C].
  split; [exact S|].
  unfold copy_assign in E. cbn [deref] in E.
  destruct (Z.ltb_spec (Capacity a) (Size rhs)) as [G|G].
  - destruct (Vector_copy rhs f) as [[c f1]|] eqn:V; [|discriminate].
    inversion E; subst a' r. clear E.
    repeat split; try lia.
    intros i Hi. unfold at_ at 1. simpl.
    change (buffer_ (data_ c) i) with (at_ c i).
    rewrite (Vector_copy_spec _ _ _ _ V i). slot.
  - destruct (Z.ltb_spec (Size rhs) (Size a)) as [L|L].
    + destruct (assign_loop _ _ _ _ _) as [t [f1|]] eqn:A; [|discriminate].
      pose proof (assign_loop_other _ _ _ _ _ _ _ A) as At.
      apply assign_loop_shape in A. destruct A as (A1 & A2 & _).
      cbn [deref] in E. inversion E; subst a' r. clear E.
      assert (K : forall i, at_ (mkVector (mkRaw (destroy_n (Z.to_nat (Size t - Size rhs))
                   (buffer_ (data_ t)) (Size rhs)) (Capacity t)) (size_ rhs)) i =
                 if (Size rhs <=? i) && (i <? Size a) then None
                 else if (0 <=? i) && (i <? Size rhs) then at_ rhs i else at_ a i).
      { intros i. unfold at_ at 1. simpl. rewrite destroy_n_spec.
        change (buffer_ (data_ t) i) with (at_ t i). rewrite At.
        rewrite A1. cmp; simpl; try reflexivity; lia. }
      repeat split; try lia; intros; rewrite K; slot.
    + destruct (assign_loop _ _ _ _ _) as [t [f1|]] eqn:A; [|discriminate].
      pose proof (assign_loop_other _ _ _ _ _ _ _ A) as At.
      apply assign_loop_shape in A. destruct A as (A1 & A2 & _).
      cbn [deref] in E.
      destruct (uninitialized_copy_n _ _ _ _ _ _) as [[b f2]|] eqn:U; [|discriminate].
      inversion E; subst a' r. clear E.
      assert (K : forall i, at_ (mkVector (mkRaw b (Capacity t)) (size_ rhs)) i =
                 if (0 <=? i) && (i <? Size rhs) then at_ rhs i else at_ a i).
      { intros i. unfold at_ at 1. simpl.
        rewrite (uninitialized_copy_n_spec _ _ _ _ _ _ _ _ U i).
        change (buffer_ (data_ t) i) with (at_ t i). rewrite At. rewrite A1.
        unfold at_. cmp; simpl; try reflexivity; try lia.
        all: f_equal; lia. }
      repeat split; try lia; intros; rewrite K; slot.
Qed.

(** C10. On a vector with [Size() <= Capacity()], [a = a] returns when
    nothing throws and, whichever way it ends, leaves the size, the capacity
    and every slot (the live ones with their values, the others raw) as
    they were. *)
Theorem self_assign_noop a :
  Inv a ->
  (exists a', copy_assign a Self Never = Done a' tt) /\
  forall f, after (copy_assign a Self f)
              (fun a' => Size a' = Size a /\ Capacity a' = Capacity a /\
                         forall i, at_ a' i = at_ a i).
Proof.
  intros I. split; [apply copy_assign_Never|].
  intros f. unfold Inv in I. unfold copy_assign. cbn [deref].
  destruct (Z.ltb_spec (Capacity a) (Size a)) as [G|G]; [lia|].
  destruct (Z.ltb_spec (Size a) (Size a)) as [L|L]; [lia|].
  destruct (assign_loop _ _ _ _ _) as [t o] eqn:A.
  pose proof (assign_loop_self _ _ _ _ _ _ A) as At.
  apply assign_loop_shape in A. destruct A as (A1 & A2 & _).
  destruct o as [f1|]; cbn [deref].
  - rewrite Z.sub_diag. cbn [Z.to_nat uninitialized_copy_n after].
    repeat split; auto.
  - cbn [after]. auto.
Qed.

End CopyAssign.

Lemma copy_assign_spec_witness :
  0 <= Size (of_list [1; 2; 3] 5) /\
  exists a', copy_assign (of_list [1; 2; 3] 5) (Other (of_list [7; 8] 0)) Never
               = Done a' tt /\
             Size a' = 2 /\ Capacity a' = 8 /\
             at_ a' 0 = Some 7 /\ at_ a' 1 = Some 8 /\ at_ a' 2 = None.
Proof.
  assert (H : 0 <= Size (of_list [1; 2; 3] 5)) by (vm_compute; discriminate).
  split; [exact H|].
  destruct (copy_assign_spec (of_list [1; 2; 3] 5) (of_list [7; 8] 0) H) as [[a' E] P].
  exists a'. split; [exact E|].
  destruct (P Never a' tt E) as (S & El & _ & R).
  destruct R as (C & D & _); [vm_compute; discriminate|].
  split; [exact S|]. split; [exact C|].
  split; [apply (El 0); vm_compute; split; [discriminate|reflexivity]|].
  split; [apply (El 1); vm_compute; split; [discriminate|reflexivity]|].
  apply (D 2). vm_compute. split; [discriminate|reflexivity].
Defined.

Lemma self_assign_noop_witness :
  Inv (of_list [1; 2; 3] 5) /\
  after (copy_assign (of_list [1; 2; 3] 5) Self (After 2))
        (fun a' => Size a' = 3 /\ Capacity a' = 8 /\
                   forall i, at_ a' i = at_ (of_list [1; 2; 3] 5) i).
Proof.
  assert (I : Inv (of_list [1; 2; 3] 5)) by (unfold Inv; vm_compute; split; discriminate).
  split; [exact I|].
  exact (proj2 (self_assign_noop (of_list [1; 2; 3] 5) I) (After 2)).
Defined.

(** * Reserve and Resize *)

Section Resize.

Context {T : Type} `{ET : Element T}.

Implicit Types (v : Vector T) (f : schedule).

(** Without a wrap the block has room for the [n] elements asked for. *)
Lemma Allocate_slots_fits n : 0 <= n -> fits n -> Allocate_slots n = n.
Proof.
  intros Hn [Hs Hf]. unfold Allocate_slots, Allocate_bytes.
  rewrite Z.mod_small by nia. apply Z.div_mul. lia.
Qed.

(** With a wrap it has room for fewer. *)
Lemma Allocate_slots_wrap n :
  0 < sizeof_T -> 2 ^ 64 <= n * sizeof_T -> Allocate_slots n < n.
Proof.
  intros Hs Hw. unfold Allocate_slots, Allocate_bytes.
  apply Z.div_lt_upper_bound; [exact Hs|].
  pose proof (Z.mod_pos_bound (n * sizeof_T) (2 ^ 64)). lia.
Qed.

Lemma Reserve_Never v c :
  0 <= c -> fits c -> exists v', Reserve v c Never = Done v' Never.
Proof.
  intros Hc Hf. unfold Reserve, RawMemory_new.
  rewrite (Allocate_slots_fits c Hc Hf), Z.ltb_irrefl.
  destruct (c <=? Capacity v); simpl; eauto.
  destruct (c =? 0); simpl;
    match goal with
    | |- context [relocate ?n ?a ?b ?c ?d Never] =>
        destruct (relocate_Never n a b c d) as (s' & b' & ->)
    end; eauto.
Qed.

(** [Reserve] keeps the live elements; a new block is raw past them. *)
Lemma Reserve_spec v c f v' f' :
  Reserve v c f = Done v' f' ->
  forall j, at_ v' j =
    if c <=? Capacity v then at_ v j
    else if (0 <=? j) && (j <? Size v) then at_ v j else None.
Proof.
  unfold Reserve, RawMemory_new. intros E j.
  destruct (Z.leb_spec c (Capacity v)) as [L|L].
  - inversion E; subst. reflexivity.
  - assert (K : forall old b f1 f2,
      relocate (Z.to_nat (Size v)) (buffer_ (data_ v)) 0 raw 0 f1 = (old, Some (b, f2)) ->
      b j = if (0 <=? j) && (j <? Size v) then at_ v j else None).
    { intros old b f1 f2 R. rewrite (relocate_spec _ _ _ _ _ _ _ _ _ R j).
      unfold at_, raw. cmp; simpl; try reflexivity; try lia.
      all: f_equal; lia. }
    run; unfold at_ at 1; simpl; eapply K; eassumption.
Qed.

(** Where the byte size of [n] elements is a [size_t], [Resize(n)]
    returns when nothing throws, and when it returns the size is [n].
    Shrinking keeps the capacity and the elements below [n] and leaves no
    object in the slots from [n] to the old size.  Growing gives the
    capacity [Reserve(n)] gives, keeps the old elements, and the new ones
    are value-initialized. *)
Lemma Resize_spec v n :
  0 <= n -> fits n ->
  (exists v', Resize v n Never = Done v' tt) /\
  forall f v' r, Resize v n f = Done v' r ->
    Size v' = n /\
    (n < Size v ->
       Capacity v' = Capacity v /\
       (forall i, 0 <= i < n -> at_ v' i = at_ v i) /\
       (forall i, n <= i < Size v -> at_ v' i = None)) /\
    (Size v < n ->
       Capacity v' = Z.max (Capacity v) n /\
       (forall i, 0 <= i < Size v -> at_ v' i = at_ v i) /\
       (forall i, Size v <= i < n -> at_ v' i = Some value_init)).
Proof.
  intros Hn Hf. split.
  - unfold Resize. destruct (n =? Size v); [eauto|].
    destruct (n <? Size v); [eauto|].
    destruct (Reserve_Never v n Hn Hf) as [v1 ->].
    match goal with
    | |- context [uninitialized_value_construct_n ?n ?a ?b Never] =>
        destruct (uninitialized_value_construct_n_Never n a b) as (b' & ->)
    end. eauto.
  - intros f v' r E.
    pose proof (Resize_shape v n f) as Sh. rewrite E in Sh. destruct Sh as [S C].
    split; [exact S|].
    unfold Resize in E.
    destruct (Z.eqb_spec n (Size v)) as [Q|Q]; [split; intros; lia|].
    destruct (Z.ltb_spec n (Size v)) as [L|L].
    + inversion E; subst v' r. clear E. split; [|intros; lia]. intros _.
      split; [reflexivity|].
      split; intros i Hi; unfold at_ at 1; simpl; rewrite destroy_n_spec; slot.
    + split; [intros; lia|]. intros G. split; [lia|].
      destruct (Reserve v n f) as [v1 f1| |] eqn:R; try discriminate.
      pose proof (Reserve_spec _ _ _ _ _ R) as Rs.
      pose proof (Reserve_shape v n f) as Rh. rewrite R in Rh. destruct Rh as [S1 _].
      destruct (uninitialized_value_construct_n _ _ _ _) as [[b f2]|] eqn:U;
        [|discriminate].
      inversion E; subst v' r. clear E.
      split; intros i Hi; unfold at_ at 1; simpl;
        rewrite (uninitialized_value_construct_n_spec _ _ _ _ _ _ U i);
        change (buffer_ (data_ v1) i) with (at_ v1 i); rewrite Rs, S1; slot.
Qed.

End Resize.

Lemma size_le_capacity_witness :
  exists v, PushBack Vector_default 7 Never = Done v tt /\ Size v <= Capacity v.
Proof.
  destruct (PushBack_Never Vector_default 7) as [v E].
  exists v. split; [exact E|].
  apply size_le_capacity.
  apply (reach_PushBack Vector_default 7 Never v reach_default).
  left. exists tt. exact E.
Defined.

Lemma Resize_spec_witness :
  0 <= 7 /\ @fits Z _ 7 /\
  exists v', Resize (of_list [0; 1; 2; 3; 4] 3) 7 Never = Done v' tt /\
             Size v' = 7 /\ Capacity v' = 8 /\
             at_ v' 4 = Some 4 /\ at_ v' 5 = Some 0 /\ at_ v' 6 = Some 0.
Proof.
  assert (Hn : 0 <= 7) by discriminate.
  assert (Hf : @fits Z _ 7) by (split; reflexivity).
  split; [exact Hn|]. split; [exact Hf|].
  destruct (Resize_spec (of_list [0; 1; 2; 3; 4] 3) 7 Hn Hf) as [[v' E] P].
  exists v'. split; [exact E|].
  destruct (P Never v' tt E) as (S & _ & G).
  destruct G as (C & K & D); [vm_compute; reflexivity|].
  split; [exact S|]. split; [exact C|].
  split; [apply (K 4); vm_compute; split; [discriminate|reflexivity]|].
  split; [apply (D 5)|apply (D 6)]; vm_compute; split; discriminate || reflexivity.
Defined.

(** * Insertion and removal at a position *)

Section Positions.

Context {T : Type} `{ET : Element T}.

Implicit Types (v : Vector T) (f : schedule) (x : T).

(** Below [2^31] elements [int pos] holds the offset: [Emplace] inserts
    [x] at [p], keeps the elements in front of it and shifts the others up
    by one slot. *)
Lemma Emplace_spec v p x :
  0 <= p <= Size v -> Size v < 2 ^ 31 ->
  (exists v', Emplace v p x Never = Done v' p) /\
  forall f v' r, Emplace v p x f = Done v' r ->
    r = p /\ Size v' = Size v + 1 /\ at_ v' p = Some x /\
    (forall i, 0 <= i < p -> at_ v' i = at_ v i) /\
    (forall i, p <= i < Size v -> at_ v' (i + 1) = at_ v i).
Proof.
  intros Hp Hs. assert (Q : to_int p = p) by (apply to_int_small; lia).
  split.
  - unfold Emplace, RawMemory_new. rewrite Q.
    destruct (Z.ltb_spec p 0); [lia|]. destruct (Z.ltb_spec (Size v) p); [lia|].
    cbn [orb]. destruct (Size v <? Capacity v).
    + destruct (negb (p =? Size v)); cbn [tick]; [|eauto].
      rewrite move_tick_Never.
      match goal with
      | |- context [move_backward ?n ?a ?b ?c Never] =>
          destruct (move_backward_Never n a b c) as (b' & ->)
      end. cbn [tick]. eauto.
    + destruct (grown v =? 0); cbn [tick];
        repeat match goal with
        | |- context [relocate ?n ?a ?b ?c ?d Never] =>
            destruct (relocate_Never n a b c d) as (? & ? & ->)
        end; eauto.
  - intros f v' r E.
    pose proof (Emplace_shape v p x f) as Sh. rewrite E in Sh.
    destruct Sh as (S & R & _). rewrite Q in R.
    split; [exact R|]. split; [exact S|].
    unfold Emplace, RawMemory_new in E. rewrite Q in E.
    destruct (Z.ltb_spec p 0); [lia|]. destruct (Z.ltb_spec (Size v) p); [lia|].
    cbn [orb] in E.
    destruct (Z.ltb_spec (Size v) (Capacity v)) as [C|C].
    + destruct (Z.eqb_spec p (Size v)) as [Pe|Pe]; cbn [negb] in E.
      * destruct (tick f); [|discriminate]. inversion E; subst v' r. clear E.
        unfold at_. simpl. repeat split; intros; slot.
      * destruct (tick f) as [f1|]; [|discriminate].
        destruct (move_tick f1) as [f2|]; [|discriminate].
        destruct (move_backward _ _ _ _ _) as [b2 [f3|]] eqn:M; [|discriminate].
        destruct (tick f3); [|discriminate]. inversion E; subst v' r. clear E.
        assert (Eq : p + Z.of_nat (Z.to_nat (Size v - 1 - p)) + 1 = Size v) by lia.
        pose proof (fun b => move_backward_spec (Z.to_nat (Size v - 1 - p)) b p f2 b2 f3)
          as Ms.
        rewrite Eq in Ms. specialize (Ms _ M).
        unfold at_. simpl. repeat split; intros; unfold upd at 1; rewrite Ms; slot.
        all: f_equal; lia.
    + assert (K : forall old b1 f1 f2 old' b2 f3 c,
        relocate (Z.to_nat p) (buffer_ (data_ v)) 0 (upd raw p (Some x)) 0 f1
          = (old, Some (b1, f2)) ->
        relocate (Z.to_nat (Size v - p)) old p b1 (p + 1) f2 = (old', Some (b2, f3)) ->
        let v' := mkVector (mkRaw b2 c) (size_ v + 1) in
        at_ v' p = Some x /\
        (forall i, 0 <= i < p -> at_ v' i = at_ v i) /\
        (forall i, p <= i < Size v -> at_ v' (i + 1) = at_ v i)).
      { intros old b1 f1 f2 old' b2 f3 c R1 R2 v0. subst v0.
        pose proof (relocate_spec _ _ _ _ _ _ _ _ _ R1) as S1.
        pose proof (relocate_spec _ _ _ _ _ _ _ _ _ R2) as S2.
        pose proof (relocate_source _ _ _ _ _ _ _ _ R1) as O.
        unfold at_. simpl. repeat split; intros; rewrite S2.
        - rewrite S1. slot.
        - rewrite S1. slot. all: f_equal; lia.
        - rewrite O by lia. slot. all: f_equal; lia. }
      run; eapply K; eassumption.
Qed.

(** For a position below [2^31], [Erase] removes the element at [p] and
    shifts the ones behind it down by one slot. *)
Lemma Erase_spec v p :
  0 <= p < Size v -> p < 2 ^ 31 ->
  (exists v', Erase v p Never = Done v' p) /\
  forall f v' r, Erase v p f = Done v' r ->
    r = p /\ Size v' = Size v - 1 /\ Capacity v' = Capacity v /\
    (forall i, 0 <= i < p -> at_ v' i = at_ v i) /\
    (forall i, p <= i < Size v - 1 -> at_ v' i = at_ v (i + 1)) /\
    at_ v' (Size v - 1) = None.
Proof.
  intros Hp Hs. assert (Q : to_int p = p) by (apply to_int_small; lia).
  split.
  - unfold Erase. rewrite Q.
    destruct (Z.ltb_spec p 0); [lia|]. destruct (Z.leb_spec (Size v) p); [lia|].
    cbn [orb].
    match goal with
    | |- context [move_range ?n ?a ?b ?c Never] =>
        destruct (move_range_Never n a b c) as (b' & ->)
    end. eauto.
  - intros f v' r E.
    pose proof (Erase_shape v p f) as Sh. rewrite E in Sh.
    destruct Sh as (S & C & R & _). rewrite Q in R.
    split; [exact R|]. split; [exact S|]. split; [exact C|].
    unfold Erase in E. rewrite Q in E.
    destruct (Z.ltb_spec p 0); [lia|]. destruct (Z.leb_spec (Size v) p); [lia|].
    cbn [orb] in E.
    destruct (move_range _ _ _ _ _) as [b [f1|]] eqn:M; [|discriminate].
    inversion E; subst v' r. clear E.
    assert (Eq : p + 1 - 1 = p) by lia.
    pose proof (fun b0 => move_range_spec (Z.to_nat (Size v - (p + 1))) b0 (p + 1) f b f1)
      as Ms.
    rewrite Eq in Ms. specialize (Ms _ M).
    unfold at_. simpl. repeat split; intros; unfold upd at 1; rewrite ?Ms; slot.
Qed.

(** Below [2^31] elements, [Erase] at the position [Insert] returned gives
    back the size and the elements the vector had. *)
Lemma Insert_Erase_roundtrip v p x f v1 r :
  0 <= p <= Size v -> Size v < 2 ^ 31 ->
  Insert v p x f = Done v1 r ->
  (exists v2, Erase v1 r Never = Done v2 p) /\
  forall f' v2 r', Erase v1 r f' = Done v2 r' ->
    Size v2 = Size v /\ forall i, 0 <= i < Size v -> at_ v2 i = at_ v i.
Proof.
  intros Hp Hs E. unfold Insert in E.
  destruct (proj2 (Emplace_spec v p x Hp Hs) f v1 r E) as (-> & S1 & _ & Lo & Hi).
  assert (P1 : 0 <= p < Size v1) by lia.
  assert (P2 : p < 2 ^ 31) by lia.
  destruct (Erase_spec v1 p P1 P2) as [Ex Sp].
  split; [exact Ex|].
  intros f' v2 r' E2.
  destruct (Sp f' v2 r' E2) as (_ & S2 & _ & Lo2 & Hi2 & _).
  split; [lia|]. intros i Hi0.
  destruct (Z.lt_ge_cases i p).
  - rewrite Lo2 by lia. apply Lo. lia.
  - rewrite Hi2 by lia. apply Hi. lia.
Qed.

(** Below [2^31] elements, [Emplace] at [end()] returns what [EmplaceBack]
    returns, and throws out of a full vector as [EmplaceBack] does. *)
Lemma Emplace_end_EmplaceBack v x f :
  0 <= Size v < 2 ^ 31 ->
  match EmplaceBack v x f with
  | Done v1 r => Emplace v (Size v) x f = Done v1 r
  | Thrown v1 => Capacity v <= Size v -> Emplace v (Size v) x f = Thrown v1
  | Undefined => True
  end.
Proof.
  intros Hs. assert (Q : to_int (Size v) = Size v) by (apply to_int_small; lia).
  unfold EmplaceBack, Emplace. rewrite Q.
  destruct (Z.ltb_spec (Size v) 0); [lia|].
  destruct (Z.ltb_spec (Size v) (Size v)); [lia|]. cbn [orb].
  rewrite Z.eqb_refl. cbn [negb].
  destruct (Z.ltb_spec (Size v) (Capacity v)) as [C|C].
  - destruct (tick f); [reflexivity|]. intros; lia.
  - destruct (RawMemory_new (grown v) f) as [[new_data f1]|]; [|reflexivity].
    destruct (tick f1) as [f2|]; [|reflexivity].
    destruct (relocate _ _ _ _ _ _) as [old [[b f3]|]]; [|reflexivity].
    rewrite Z.sub_diag. unfold relocate. cbn [Z.to_nat].
    destruct relocate_by_move; reflexivity.
Qed.

(** [PushBack] and [EmplaceBack] leave the same state. *)
Lemma PushBack_as_EmplaceBack v x f :
  match EmplaceBack v x f with
  | Done v1 _ => PushBack v x f = Done v1 tt
  | Thrown v1 => PushBack v x f = Thrown v1
  | Undefined => PushBack v x f = Undefined
  end.
Proof.
  unfold EmplaceBack, PushBack.
  destruct (Size v <? Capacity v).
  - destruct (tick f); reflexivity.
  - destruct (RawMemory_new (grown v) f) as [[new_data f1]|]; [|reflexivity].
    destruct (tick f1) as [f2|]; [|reflexivity].
    destruct (relocate _ _ _ _ _ _) as [old [[b f3]|]]; reflexivity.
Qed.

End Positions.

(** The scenarios of the specification, over [int]. *)
Example Insert_scenario :
  match Insert (of_list [0; 1; 2; 3; 4] 3) 1 99 Never with
  | Done v r => r = 1 /\ Size v = 6 /\
      slots v 6 = [Some 0; Some 99; Some 1; Some 2; Some 3; Some 4]
  | _ => False
  end.
Proof. vm_compute. repeat split. Qed.

Example Erase_scenario :
  match Erase (of_list [0; 99; 1; 2; 3; 4] 2) 1 Never with
  | Done v r => r = 1 /\ Size v = 5 /\
      slots v 6 = [Some 0; Some 1; Some 2; Some 3; Some 4; None]
  | _ => False
  end.
Proof. vm_compute. repeat split. Qed.

Example PushBack_scenario :
  match PushBack_all [0; 1; 2; 3; 4] Vector_default with
  | Some v => Size v = 5 /\ Capacity v = 8 /\
      slots v 5 = [Some 0; Some 1; Some 2; Some 3; Some 4]
  | None => False
  end.
Proof. vm_compute. repeat split. Qed.

(** * Positions past [INT_MAX] *)

(** C4 at a vector of [2^31 + 1] elements: the iterator [begin() + 2^31]
    is inside [[begin(), end()]], [int pos] receives [-2^31], and [Insert]
    constructs the element in front of the new block instead of inserting
    it at index [2^31]. *)
Theorem Insert_past_INT_MAX :
  0 <= 2147483648 <= Size large /\
  to_int 2147483648 = -2147483648 /\
  Insert large 2147483648 99 Never = Undefined.
Proof. vm_compute. repeat split; discriminate. Qed.

(** C5 at a vector of [2^31 + 1] elements: the iterator [begin() + 2^31]
    is inside [[begin(), end())], [int pos] receives [-2^31], and [Erase]
    moves a range that starts in front of the block instead of removing
    the element at index [2^31]. *)
Theorem Erase_past_INT_MAX :
  0 <= 2147483648 < Size large /\
  to_int 2147483648 = -2147483648 /\
  Erase large 2147483648 Never = Undefined.
Proof. vm_compute. repeat split; discriminate. Qed.

(** C9 where the two calls part.  On a full vector of [2^31 + 1]
    elements [EmplaceBack] returns and [Emplace] at [end()] has undefined
    behaviour, [int pos] being negative.  On a vector with a spare slot,
    when the constructor of the new element throws, [EmplaceBack] leaves
    the vector as it was and the handler in [Emplace] hands [end()] to
    [operator delete]. *)
Theorem Emplace_end_differs :
  (Emplace large (Size large) 99 Never = Undefined /\
   exists v', EmplaceBack large 99 Never = Done v' (Size large)) /\
  (Emplace (of_list [1; 2] 1) 2 3 (After 0) = Undefined /\
   exists v', EmplaceBack (of_list [1; 2] 1) 3 (After 0) = Thrown v' /\
              Size v' = 2 /\ Capacity v' = 3 /\ slots v' 3 = [Some 1; Some 2; None]).
Proof.
  split; split.
  - vm_compute. reflexivity.
  - apply EmplaceBack_Never.
  - vm_compute. reflexivity.
  - eexists. split; [vm_compute; reflexivity|]. vm_compute. repeat split.
Qed.

(** * Construction *)

Section Construction.

Context {T : Type} `{ET : Element T}.

Implicit Types (v other : Vector T) (f : schedule).

Lemma Vector_sized_at n f v f' :
  0 <= n -> Vector_sized n f = Constructed v f' ->
  forall i, at_ v i = if (0 <=? i) && (i <? n) then Some value_init else None.
Proof.
  intros Hn E i. unfold Vector_sized, RawMemory_new in E.
  assert (K : forall b f1 f2,
    uninitialized_value_construct_n (Z.to_nat n) raw 0 f1 = Some (b, f2) ->
    b i = if (0 <=? i) && (i <? n) then Some value_init else None).
  { intros b f1 f2 U. rewrite (uninitialized_value_construct_n_spec _ _ _ _ _ _ U i).
    unfold raw. slot. }
  run; unfold at_; simpl; eapply K; eassumption.
Qed.

Lemma Vector_sized_Never n :
  0 <= n -> fits n -> exists v, Vector_sized n Never = Constructed v Never.
Proof.
  intros Hn Hf. unfold Vector_sized, RawMemory_new.
  rewrite (Allocate_slots_fits n Hn Hf), Z.ltb_irrefl.
  destruct (n =? 0); cbn [tick];
    match goal with
    | |- context [uninitialized_value_construct_n ?k ?a ?b Never] =>
        destruct (uninitialized_value_construct_n_Never k a b) as (b' & ->)
    end; eauto.
Qed.

(** Where the byte size of [n] elements is a [size_t], [Vector(n)]
    returns when nothing throws, with size and capacity [n], [n]
    value-initialized elements and nothing else in the block.  Where
    [n * sizeof(T)] wraps, no call yields a vector, and the one in which
    [operator new] returns its short block has undefined behaviour. *)
Theorem Vector_sized_spec n :
  0 <= n ->
  (fits n ->
     (exists v, Vector_sized n Never = Constructed v Never) /\
     forall f v f', Vector_sized n f = Constructed v f' ->
       Size v = n /\ Capacity v = n /\
       forall i, at_ v i = if (0 <=? i) && (i <? n) then Some value_init else None) /\
  (0 < sizeof_T -> 2 ^ 64 <= n * sizeof_T ->
     Vector_sized n Never = ConstructorUndefined /\
     forall f v f', Vector_sized n f <> Constructed v f').
Proof.
  intros Hn. split.
  - intros Hf. split.
    + apply (Vector_sized_Never n Hn Hf).
    + intros f v f' E.
      destruct (Vector_sized_shape _ _ _ _ E) as [S C].
      split; [exact S|]. split; [exact C|].
      apply (Vector_sized_at _ _ _ _ Hn E).
  - intros Hs Hw. pose proof (Allocate_slots_wrap n Hs Hw) as L.
    apply Z.ltb_lt in L. unfold Vector_sized, RawMemory_new. rewrite L.
    assert (N : n <> 0) by (intros ->; simpl in Hw; lia).
    apply Z.eqb_neq in N. rewrite N. cbn [tick]. split; [reflexivity|].
    intros f v f'. destruct (tick f); discriminate.
Qed.

(** [Vector(other)] returns when nothing throws; the copy has the size of
    [other], a capacity equal to that size (not to the capacity of [other]),
    the elements of [other] and nothing else in its block. *)
Theorem Vector_copy_fits other :
  (exists c, Vector_copy other Never = Some (c, Never)) /\
  forall f c f', Vector_copy other f = Some (c, f') ->
    Size c = Size other /\ Capacity c = Size other /\
    forall i, at_ c i =
      if (0 <=? i) && (i <? Size other) then at_ other i else None.
Proof.
  split; [apply Vector_copy_Never|].
  intros f c f' E. destruct (Vector_copy_shape _ _ _ _ E) as [S C].
  split; [exact S|]. split; [exact C|].
  apply (Vector_copy_spec _ _ _ _ E).
Qed.

(** [Swap] hands each vector the size, the capacity and the block of the
    other, and two swaps in a row give back the two vectors. *)
Theorem Swap_exchanges v other :
  let (v1, o1) := Swap v other in
  (Size v1 = Size other /\ Capacity v1 = Capacity other /\
   buffer_ (data_ v1) = buffer_ (data_ other)) /\
  (Size o1 = Size v /\ Capacity o1 = Capacity v /\
   buffer_ (data_ o1) = buffer_ (data_ v)) /\
  Swap v1 o1 = (v, other).
Proof.
  destruct v as [[bv cv] sv], other as [[bo co] so]. cbv. repeat split.
Qed.

(** A move (construction or assignment from another vector) gives the
    target the block, capacity and size of the source and leaves the
    source with size 0, capacity 0 and no object; the source can be used
    again: a [PushBack] on it yields the one-element vector. *)
Theorem Vector_move_leaves_empty other x :
  let (target, source) := Vector_move other in
  Size target = Size other /\ Capacity target = Capacity other /\
  buffer_ (data_ target) = buffer_ (data_ other) /\
  Size source = 0 /\ Capacity source = 0 /\ (forall i, at_ source i = None) /\
  exists s', PushBack source x Never = Done s' tt /\
             Size s' = 1 /\ Capacity s' = 1 /\
             forall i, at_ s' i = if i =? 0 then Some x else None.
Proof.
  destruct other as [[bo co] so]. cbn [Vector_move RawMemory_move data_ size_ buffer_ capacity_].
  repeat split.
  unfold PushBack, RawMemory_new, grown, Size, Capacity, relocate.
  cbn [data_ size_ buffer_ capacity_ Z.ltb Z.compare Z.eqb tick Z.to_nat].
  destruct relocate_by_move; cbn [uninitialized_move_n uninitialized_copy_n].
  - eexists. split; [reflexivity|]. repeat split.
  - eexists. split; [reflexivity|]. repeat split.
Qed.

End Construction.

(** [large] is what [Vector<char> v(2147483649)] constructs. *)
Lemma large_sized :
  exists v, Vector_sized 2147483649 Never = Constructed v Never /\
            Size v = Size large /\ Capacity v = Capacity large /\
            forall i, at_ v i = at_ large i.
Proof.
  assert (Hn : 0 <= 2147483649) by discriminate.
  assert (Hf : @fits Z _ 2147483649) by (split; reflexivity).
  destruct (Vector_sized_Never (T := Z) 2147483649 Hn Hf) as [v E].
  exists v. split; [exact E|].
  destruct (Vector_sized_shape _ _ _ _ E) as [S C].
  split; [exact S|]. split; [exact C|].
  intros i. rewrite (Vector_sized_at _ _ _ _ Hn E i). reflexivity.
Qed.

Lemma Vector_sized_spec_witness :
  0 <= 3 /\ @fits int32 _ 3 /\
  (exists v, Vector_sized 3 Never = Constructed v Never /\
             Size v = 3 /\
             slots v 4 = [Some (Int32 0); Some (Int32 0); Some (Int32 0); None]) /\
  0 <= 2 ^ 62 /\ 0 < @sizeof_T int32 _ /\ 2 ^ 64 <= 2 ^ 62 * @sizeof_T int32 _ /\
  @Vector_sized int32 _ (2 ^ 62) Never = ConstructorUndefined.
Proof.
  assert (H : 0 <= 3) by discriminate.
  assert (F : @fits int32 _ 3) by (split; reflexivity).
  assert (H' : 0 <= 2 ^ 62) by discriminate.
  assert (S' : 0 < @sizeof_T int32 _) by reflexivity.
  assert (W : 2 ^ 64 <= 2 ^ 62 * @sizeof_T int32 _) by discriminate.
  split; [exact H|]. split; [exact F|]. split;
    [|split; [exact H'|]; split; [exact S'|]; split; [exact W|];
      exact (proj1 (proj2 (Vector_sized_spec (T := int32) (2 ^ 62) H') S' W))].
  destruct (proj1 (Vector_sized_spec (T := int32) 3 H) F) as [[v E] P].
  exists v. split; [exact E|].
  destruct (P Never v Never E) as (S & _ & A).
  split; [exact S|].
  unfold slots. cbn [seq map]. rewrite !A. reflexivity.
Defined.

Lemma Vector_copy_fits_witness :
  exists c, Vector_copy (of_list [4; 5] 6) Never = Some (c, Never) /\
            Size c = 2 /\ Capacity c = 2 /\ slots c 3 = [Some 4; Some 5; None].
Proof.
  destruct (Vector_copy_fits (of_list [4; 5] 6)) as [[c E] P].
  exists c. split; [exact E|].
  destruct (P Never c Never E) as (S & C & A).
  split; [exact S|]. split; [exact C|].
  unfold slots. cbn [seq map]. rewrite !A. reflexivity.
Defined.

(** * Appending and removing at the end *)

Section Back.

Context {T : Type} `{ET : Element T}.

Implicit Types (v : Vector T) (f : schedule) (x : T).

(** The slots after a [PushBack] that returned. *)
Lemma PushBack_at v x f v' r :
  0 <= Size v -> PushBack v x f = Done v' r ->
  forall j, at_ v' j =
    if j =? Size v then Some x
    else if Size v <? Capacity v then at_ v j
    else if (0 <=? j) && (j <? Size v) then at_ v j else None.
Proof.
  intros Hs E j. unfold PushBack, RawMemory_new in E.
  destruct (Z.ltb_spec (Size v) (Capacity v)) as [C|C].
  - destruct (tick f); [|discriminate]. inversion E; subst v' r.
    unfold at_. simpl. slot.
  - assert (K : forall old b f1 f2,
      relocate (Z.to_nat (Size v)) (buffer_ (data_ v)) 0 (upd raw (Size v) (Some x)) 0 f1
        = (old, Some (b, f2)) ->
      b j = if j =? Size v then Some x
            else if (0 <=? j) && (j <? Size v) then at_ v j else None).
    { intros old b f1 f2 R. rewrite (relocate_spec _ _ _ _ _ _ _ _ _ R j).
      unfold at_, raw. slot. all: f_equal; lia. }
    run; unfold at_ at 1; simpl; eapply K; eassumption.
Qed.

(** [PushBack] returns when nothing throws, and a [PushBack] that returned
    has put [x] at index [Size()], kept every element in front of it and
    raised the size by one. *)
Theorem PushBack_appends v x :
  0 <= Size v ->
  (exists v', PushBack v x Never = Done v' tt) /\
  forall f v' r, PushBack v x f = Done v' r ->
    Size v' = Size v + 1 /\ at_ v' (Size v) = Some x /\
    forall i, 0 <= i < Size v -> at_ v' i = at_ v i.
Proof.
  intros Hs. split; [apply PushBack_Never|].
  intros f v' r E. pose proof (PushBack_shape v x f) as Sh. rewrite E in Sh.
  pose proof (PushBack_at _ _ _ _ _ Hs E) as A.
  split; [lia|]. split.
  - rewrite A. slot.
  - intros i Hi. rewrite A. slot.
Qed.

(** On a vector that keeps [Size() <= Capacity()], the index [EmplaceBack]
    returns passes both assertions of [operator[]] and addresses the new
    element. *)
Theorem EmplaceBack_reference v x f v' r :
  Inv v -> EmplaceBack v x f = Done v' r ->
  r = Size v /\ Vector_index v' r = Some (Some x).
Proof.
  unfold Inv. intros I E.
  pose proof (EmplaceBack_shape v x f) as Sh. rewrite E in Sh.
  destruct Sh as (S & R & C). split; [exact R|].
  pose proof (PushBack_as_EmplaceBack v x f) as P. rewrite E in P.
  assert (Hs : 0 <= Size v) by lia.
  pose proof (PushBack_at _ _ _ _ _ Hs P r) as A. unfold at_ in A.
  unfold Vector_index, RawMemory_index. unfold grown, Size, Capacity in *.
  destruct (Z.ltb_spec r (size_ v')); [|lia].
  destruct (Z.ltb_spec r (capacity_ (data_ v'))).
  - rewrite A. subst r. rewrite Z.eqb_refl. reflexivity.
  - cmp; lia.
Qed.

(** [PopBack] right after a [PushBack] that returned gives back the size
    and the elements the vector had, and leaves no object in the slot of
    the element pushed. *)
Theorem PushBack_PopBack v x f v1 r :
  0 <= Size v -> PushBack v x f = Done v1 r ->
  exists v2, PopBack v1 = Done v2 tt /\
    Size v2 = Size v /\ Capacity v2 = Capacity v1 /\
    (forall i, 0 <= i < Size v -> at_ v2 i = at_ v i) /\
    at_ v2 (Size v) = None.
Proof.
  intros Hs E. pose proof (PushBack_shape v x f) as Sh. rewrite E in Sh.
  destruct Sh as [S _]. pose proof (PushBack_at _ _ _ _ _ Hs E) as A.
  unfold PopBack. destruct (Z.leb_spec (Size v1) 0); [lia|].
  eexists. split; [reflexivity|].
  unfold Size, Capacity, at_ in *. cbn [data_ size_ buffer_ capacity_ destroy_n].
  split; [lia|]. split; [reflexivity|]. split.
  - intros i Hi. unfold upd. destruct (Z.eqb_spec i (size_ v1 - 1)); [lia|].
    rewrite A. slot.
  - unfold upd. destruct (Z.eqb_spec (size_ v) (size_ v1 - 1)); [reflexivity|lia].
Qed.

(** Removing the last element with [Erase] (at a position below [2^31])
    is [PopBack]: the same state, the iterator returned being [end()]. *)
Theorem Erase_last_is_PopBack v f :
  0 < Size v <= 2 ^ 31 ->
  exists v', PopBack v = Done v' tt /\
             Erase v (Size v - 1) f = Done v' (Size v - 1) /\
             Size v' = Size v - 1.
Proof.
  intros Hs.
  assert (Q : to_int (Size v - 1) = Size v - 1) by (apply to_int_small; lia).
  unfold PopBack, Erase. rewrite Q.
  destruct (Z.leb_spec (Size v) 0); [lia|].
  destruct (Z.ltb_spec (Size v - 1) 0); [lia|].
  destruct (Z.leb_spec (Size v) (Size v - 1)); [lia|]. cbn [orb].
  replace (Size v - (Size v - 1 + 1)) with 0 by lia.
  cbn [Z.to_nat move_range destroy_n].
  eexists. split; [reflexivity|]. split; reflexivity.
Qed.

Lemma PushBack_all_contents l : forall v v',
  0 <= Size v -> PushBack_all l v = Some v' ->
  Size v' = Size v + Z.of_nat (length l) /\
  (forall i, 0 <= i < Size v -> at_ v' i = at_ v i) /\
  (forall k, (k < length l)%nat -> at_ v' (Size v + Z.of_nat k) = nth_error l k).
Proof.
  induction l as [|x l IH]; intros v v' Hs E.
  - simpl in E. inversion E; subst. cbn [length]. repeat split; try lia; auto.
  - cbn [PushBack_all] in E.
    destruct (PushBack v x Never) as [v1 r| |] eqn:P; try discriminate.
    pose proof (PushBack_shape v x Never) as Sh. rewrite P in Sh. destruct Sh as [S1 _].
    pose proof (PushBack_at _ _ _ _ _ Hs P) as A.
    assert (X1 : at_ v1 (Size v) = Some x) by (rewrite A; slot).
    assert (K1 : forall i, 0 <= i < Size v -> at_ v1 i = at_ v i)
      by (intros i Hi; rewrite A; slot).
    assert (Hs1 : 0 <= Size v1) by lia.
    destruct (IH v1 v' Hs1 E) as (S' & K' & N').
    cbn [length]. split; [lia|]. split.
    + intros i Hi. rewrite K' by lia. apply K1. lia.
    + intros [|k] Hk.
      * cbn [nth_error]. rewrite Z.add_0_r, K' by lia. exact X1.
      * cbn [nth_error]. rewrite <- N' by lia. f_equal. lia.
Qed.

End Back.

Lemma PushBack_appends_witness :
  0 <= Size (of_list [1; 2] 0) /\
  exists v', PushBack (of_list [1; 2] 0) 3 Never = Done v' tt /\
             Size v' = 3 /\ at_ v' 2 = Some 3 /\ at_ v' 0 = Some 1.
Proof.
  assert (H : 0 <= Size (of_list [1; 2] 0)) by (vm_compute; discriminate).
  split; [exact H|].
  destruct (PushBack_appends (of_list [1; 2] 0) 3 H) as [[v' E] P].
  exists v'. split; [exact E|].
  destruct (P Never v' tt E) as (S & X & K).
  split; [exact S|]. split; [exact X|].
  apply (K 0). vm_compute. split; [discriminate|reflexivity].
Defined.

Lemma EmplaceBack_reference_witness :
  Inv (of_list [1; 2] 0) /\
  exists v', EmplaceBack (of_list [1; 2] 0) 3 Never = Done v' 2 /\
             Vector_index v' 2 = Some (Some 3).
Proof.
  assert (I : Inv (of_list [1; 2] 0)) by (unfold Inv; vm_compute; split; discriminate).
  split; [exact I|].
  destruct (EmplaceBack_Never (of_list [1; 2] 0) 3) as [v' E].
  exists v'. split; [exact E|].
  exact (proj2 (EmplaceBack_reference (of_list [1; 2] 0) 3 Never v' _ I E)).
Defined.

Lemma PushBack_PopBack_witness :
  0 <= Size (of_list [1; 2] 0) /\
  exists v1 v2, PushBack (of_list [1; 2] 0) 3 Never = Done v1 tt /\
                PopBack v1 = Done v2 tt /\ Size v2 = 2 /\ Capacity v2 = 4 /\
                at_ v2 1 = Some 2 /\ at_ v2 2 = None.
Proof.
  assert (H : 0 <= Size (of_list [1; 2] 0)) by (vm_compute; discriminate).
  split; [exact H|].
  destruct (PushBack_Never (of_list [1; 2] 0) 3) as [v1 E].
  destruct (PushBack_PopBack (of_list [1; 2] 0) 3 Never v1 tt H E)
    as (v2 & P & S & C & K & N).
  exists v1, v2. split; [exact E|]. split; [exact P|]. split; [exact S|].
  split; [rewrite C; vm_compute in E; inversion E; reflexivity|].
  split; [apply (K 1); vm_compute; split; [discriminate|reflexivity]|exact N].
Defined.

Lemma Erase_last_is_PopBack_witness :
  0 < Size (of_list [1; 2; 3] 1) <= 2 ^ 31 /\
  exists v', PopBack (of_list [1; 2; 3] 1) = Done v' tt /\
             Erase (of_list [1; 2; 3] 1) 2 Never = Done v' 2.
Proof.
  assert (H : 0 < Size (of_list [1; 2; 3] 1) <= 2 ^ 31)
    by (vm_compute; split; [reflexivity|discriminate]).
  split; [exact H|].
  destruct (Erase_last_is_PopBack (of_list [1; 2; 3] 1) Never H) as (v' & P & E & _).
  exists v'. split; [exact P|exact E].
Defined.

(** * Sequences of appends *)

Section Appends.

Context {T : Type} `{ET : Element T}.

Implicit Types (v : Vector T) (l : list T).

Lemma map_seq_nth_error l : forall (g : nat -> option T),
  (forall k, (k < length l)%nat -> g k = nth_error l k) ->
  map g (seq 0 (length l)) = map Some l.
Proof.
  induction l as [|x l IH]; intros g G; [reflexivity|].
  cbn [length seq map]. rewrite (G O) by (cbn [length]; lia). cbn [nth_error].
  f_equal. rewrite <- seq_shift, map_map. apply IH.
  intros k Hk. rewrite G by (cbn [length]; lia). reflexivity.
Qed.

(** [PushBack] of the elements of a list onto an empty vector, none
    throwing, returns every time; the vector then holds as many elements
    as the list, in the order of the list. *)
Theorem PushBack_all_in_order l :
  exists v, PushBack_all l Vector_default = Some v /\
            Size v = Z.of_nat (length l) /\
            slots v (length l) = map Some l.
Proof.
  destruct (PushBack_all_doubled l Vector_default) as (v & E & S & _).
  { left. split; reflexivity. }
  exists v. split; [exact E|].
  change (Size Vector_default) with 0 in S. split; [lia|].
  assert (H0 : 0 <= Size (@Vector_default T)) by (unfold Size; simpl; lia).
  destruct (PushBack_all_contents l _ _ H0 E) as (_ & _ & N).
  unfold slots. apply map_seq_nth_error. intros k Hk.
  rewrite <- (N k Hk). reflexivity.
Qed.





End Appends.



(** * The representation invariant *)

Lemma to_int_le p : 0 <= p -> to_int p <= p.
Proof.
  intros H. unfold to_int.
  assert (0 < 2 ^ 32) by reflexivity.
  pose proof (Z.mod_le (p + 2 ^ 31) (2 ^ 32)).
  assert (0 <= 2 ^ 31) by discriminate. lia.
Qed.

Section Representation.

Context {T : Type} `{ET : Element T}.

Implicit Types (v : Vector T) (f : schedule) (x : T) (b : block T).

Lemma Rep_intro v :
  0 <= Size v <= Capacity v ->
  (forall i, 0 <= i < Size v -> at_ v i <> None) ->
  (forall i, i < 0 \/ Size v <= i -> at_ v i = None) ->
  Rep v.
Proof.
  intros I L R. split; [exact I|]. intros i. split.
  - intros N. destruct (Z.lt_ge_cases i 0); [rewrite R in N by lia; congruence|].
    destruct (Z.lt_ge_cases i (Size v)); [lia|]. rewrite R in N by lia. congruence.
  - apply L.
Qed.

Lemma Rep_live v i : Rep v -> 0 <= i < Size v -> at_ v i <> None.
Proof. intros [_ R] H. apply R, H. Qed.

Lemma Rep_raw v i : Rep v -> i < 0 \/ Size v <= i -> at_ v i = None.
Proof.
  intros [_ R] H. destruct (at_ v i) eqn:E; [|reflexivity].
  assert (N : at_ v i <> None) by congruence. apply R in N. lia.
Qed.

(** A relocation leaves every slot of its source live or raw as it was. *)
Lemma uninitialized_move_n_source_live n : forall (src : block T) s dst d f src' r,
  uninitialized_move_n n src s dst d f = (src', r) ->
  forall j, src' j = None <-> src j = None.
Proof.
  induction n as [|n IH]; intros src s dst d f src' r E j.
  - simpl in E. inversion E; subst. reflexivity.
  - cbn [uninitialized_move_n] in E. destruct (move_tick f) as [f1|].
    + rewrite (IH _ _ _ _ _ _ _ E j). unfold upd.
      destruct (Z.eqb_spec j s); [subst j|reflexivity].
      destruct (src s); simpl; split; congruence.
    + inversion E; subst. reflexivity.
Qed.

Lemma relocate_source_live n (src : block T) s dst d f src' r :
  relocate n src s dst d f = (src', r) ->
  forall j, src' j = None <-> src j = None.
Proof.
  unfold relocate. destruct relocate_by_move; intros E.
  - eapply uninitialized_move_n_source_live, E.
  - inversion E; subst. reflexivity.
Qed.

(** [std::move] one slot down over live objects, stopped or not, leaves
    every slot live or raw as it was. *)
Lemma move_range_live n : forall b s f b' o,
  move_range n b s (s - 1) f = (b', o) ->
  (forall j, s - 1 <= j < s + Z.of_nat n -> b j <> None) ->
  forall j, b' j = None <-> b j = None.
Proof.
  induction n as [|n IH]; intros b s f b' o E L j.
  - simpl in E. inversion E; subst. reflexivity.
  - cbn [move_range] in E. destruct (tick f) as [f1|].
    + replace (s - 1 + 1) with (s + 1 - 1) in E by lia.
      assert (Ls : b s <> None) by (apply L; lia).
      assert (Ld : b (s - 1) <> None) by (apply L; lia).
      rewrite (IH _ _ _ _ _ E).
      * unfold upd. cmp; subst; try reflexivity.
        -- destruct (b s); simpl; split; congruence.
        -- split; congruence.
      * intros k Hk. unfold upd. cmp; subst.
        -- destruct (b s); simpl; congruence.
        -- exact Ls.
        -- apply L. lia.
    + inversion E; subst. reflexivity.
Qed.

(** The slots of the target while [rhs] is assigned to it, the loop
    stopped after [k] assignments or finished. *)
Lemma assign_loop_other_partial n : forall i v rhs f t o,
  assign_loop n i v (Other rhs) f = (t, o) ->
  exists k, 0 <= k <= Z.of_nat n /\ (o <> None -> k = Z.of_nat n) /\
    forall j, at_ t j = if (i <=? j) && (j <? i + k) then at_ rhs j else at_ v j.
Proof.
  induction n as [|n IH]; intros i v rhs f t o E.
  - simpl in E. inversion E; subst. exists 0. repeat split; try lia.
    intros j. slot.
  - cbn [assign_loop] in E. destruct (tick f) as [f1|].
    + destruct (IH _ _ _ _ _ _ E) as (k & Hk & Ho & A).
      exists (k + 1). rewrite Nat2Z.inj_succ. split; [lia|]. split.
      * intros N. rewrite (Ho N). lia.
      * intros j. rewrite A, at_set_buffer. cbn [deref]. unfold at_. slot.
    + inversion E; subst. exists 0. split; [lia|]. split; [congruence|].
      intros j. slot.
Qed.

End Representation.

Section Slots.

Context {T : Type} `{ET : Element T}.

Implicit Types (v a rhs : Vector T) (f : schedule) (x : T) (b : block T).

(** The slots after an [Emplace] that returned, in terms of the narrowed
    offset [pos] the code works with. *)
Lemma Emplace_at v p x f v' r :
  0 <= Size v -> Emplace v p x f = Done v' r ->
  0 <= to_int p <= Size v /\
  forall j, at_ v' j =
    if Size v <? Capacity v then
      if p =? Size v then (if j =? Size v then Some x else at_ v j)
      else if j <? to_int p then at_ v j
      else if j =? to_int p then Some x
      else if j <=? Size v then at_ v (j - 1) else at_ v j
    else
      if (0 <=? j) && (j <? to_int p) then at_ v j
      else if j =? to_int p then Some x
      else if (to_int p <? j) && (j <=? Size v) then at_ v (j - 1) else None.
Proof.
  intros Hs E.
  pose proof (Emplace_shape v p x f) as Sh. rewrite E in Sh.
  destruct Sh as (S & R & R0 & Hp & _).
  pose proof (to_int_le p (proj1 Hp)) as Le.
  split; [lia|].
  unfold Emplace, RawMemory_new in E. rewrite <- R in *. clear R.
  destruct (Z.ltb_spec p 0); [lia|]. destruct (Z.ltb_spec (Size v) p); [lia|].
  cbn [orb] in E.
  destruct (Z.ltb_spec r 0); [lia|].
  destruct (Z.ltb_spec (Size v) (Capacity v)) as [C|C].
  - destruct (Z.eqb_spec p (Size v)) as [Pe|Pe]; cbn [negb] in E.
    + destruct (tick f); [|discriminate]. inversion E; subst v'.
      intros j. unfold at_. simpl. slot.
    + destruct (tick f) as [f1|]; [|discriminate].
      destruct (move_tick f1) as [f2|]; [|discriminate].
      destruct (move_backward _ _ _ _ _) as [b2 [f3|]] eqn:M; [|discriminate].
      destruct (tick f3); [|discriminate]. inversion E; subst v'.
      assert (Eq : r + Z.of_nat (Z.to_nat (Size v - 1 - r)) + 1 = Size v) by lia.
      pose proof (fun b => move_backward_spec (Z.to_nat (Size v - 1 - r)) b r f2 b2 f3)
        as Ms.
      rewrite Eq in Ms. specialize (Ms _ M).
      intros j. unfold at_. simpl. unfold upd at 1. rewrite Ms. slot.
      all: f_equal; lia.
  - assert (K : forall old b1 f1 f2 old' b2 f3,
      relocate (Z.to_nat r) (buffer_ (data_ v)) 0 (upd raw r (Some x)) 0 f1
        = (old, Some (b1, f2)) ->
      relocate (Z.to_nat (Size v - r)) old r b1 (r + 1) f2 = (old', Some (b2, f3)) ->
      forall j, b2 j =
        if (0 <=? j) && (j <? r) then at_ v j
        else if j =? r then Some x
        else if (r <? j) && (j <=? Size v) then at_ v (j - 1) else None).
    { intros old b1 f1 f2 old' b2 f3 R1 R2 j.
      pose proof (relocate_spec _ _ _ _ _ _ _ _ _ R1) as S1.
      pose proof (relocate_spec _ _ _ _ _ _ _ _ _ R2) as S2.
      pose proof (relocate_source _ _ _ _ _ _ _ _ R1) as O.
      rewrite S2. unfold at_.
      destruct (Z.leb_spec (r + 1) j); destruct (Z.ltb_spec j (r + 1 + Z.of_nat (Z.to_nat (Size v - r))));
        cbn [andb].
      - rewrite O by lia. slot. all: try (f_equal; lia).
      - rewrite S1. unfold raw. slot. all: try (f_equal; lia).
      - rewrite S1. unfold raw. slot. all: try (f_equal; lia).
      - rewrite S1. unfold raw. slot. all: try (f_equal; lia). }
    pattern v'. match goal with |- ?Q v' => set (P := Q) end.
    run; subst P; cbv beta; intros j; unfold at_ at 1; simpl; eapply K; eassumption.
Qed.

(** The slots after an [Erase] that returned, in terms of [pos]. *)
Lemma Erase_at v p f v' r :
  Erase v p f = Done v' r ->
  0 <= to_int p < Size v /\
  forall j, at_ v' j =
    if (to_int p <=? j) && (j <? Size v - 1) then at_ v (j + 1)
    else if j =? Size v - 1 then None else at_ v j.
Proof.
  intros E. pose proof (Erase_shape v p f) as Sh. rewrite E in Sh.
  destruct Sh as (S & C & R & R0 & Hp).
  pose proof (to_int_le p (proj1 Hp)) as Le. split; [lia|].
  unfold Erase in E. rewrite <- R in *. clear R.
  destruct (Z.ltb_spec p 0); [lia|]. destruct (Z.leb_spec (Size v) p); [lia|].
  cbn [orb] in E.
  destruct (Z.ltb_spec r 0); [lia|].
  destruct (move_range _ _ _ _ _) as [b [f1|]] eqn:M; [|discriminate].
  inversion E; subst v'.
  assert (Eq : r + 1 - 1 = r) by lia.
  pose proof (fun b0 => move_range_spec (Z.to_nat (Size v - (r + 1))) b0 (r + 1) f b f1)
    as Ms.
  rewrite Eq in Ms. specialize (Ms _ M).
  intros j. unfold at_. simpl. unfold upd at 1. rewrite Ms. slot.
Qed.

(** The slots after [a = rhs] returned. *)
Lemma copy_assign_at a rhs f a' r :
  0 <= Size a -> copy_assign a (Other rhs) f = Done a' r ->
  forall i, at_ a' i =
    if Capacity a <? Size rhs then
      if (0 <=? i) && (i <? Size rhs) then at_ rhs i else None
    else if (0 <=? i) && (i <? Size rhs) then at_ rhs i
    else if (Size rhs <=? i) && (i <? Size a) then None else at_ a i.
Proof.
  intros Ha E. unfold copy_assign in E. cbn [deref] in E.
  destruct (Z.ltb_spec (Capacity a) (Size rhs)) as [G|G].
  - destruct (Vector_copy rhs f) as [[c f1]|] eqn:V; [|discriminate].
    inversion E; subst a' r. intros i. unfold at_ at 1. simpl.
    change (buffer_ (data_ c) i) with (at_ c i).
    apply (Vector_copy_spec _ _ _ _ V i).
  - destruct (Z.ltb_spec (Size rhs) (Size a)) as [L|L].
    + destruct (assign_loop _ _ _ _ _) as [t [f1|]] eqn:A; [|discriminate].
      pose proof (assign_loop_other _ _ _ _ _ _ _ A) as At.
      apply assign_loop_shape in A. destruct A as (A1 & A2 & _).
      cbn [deref] in E. inversion E; subst a' r.
      intros i. unfold at_ at 1. simpl. rewrite destroy_n_spec.
      change (buffer_ (data_ t) i) with (at_ t i). rewrite At, A1. slot.
    + destruct (assign_loop _ _ _ _ _) as [t [f1|]] eqn:A; [|discriminate].
      pose proof (assign_loop_other _ _ _ _ _ _ _ A) as At.
      apply assign_loop_shape in A. destruct A as (A1 & A2 & _).
      cbn [deref] in E.
      destruct (uninitialized_copy_n _ _ _ _ _ _) as [[b f2]|] eqn:U; [|discriminate].
      inversion E; subst a' r.
      intros i. unfold at_ at 1. simpl.
      rewrite (uninitialized_copy_n_spec _ _ _ _ _ _ _ _ U i).
      change (buffer_ (data_ t) i) with (at_ t i). rewrite At, A1.
      unfold at_. slot. all: f_equal; lia.
Qed.

(** The slots after [a = rhs] threw: a prefix of [k] elements is already
    that of [rhs], the rest is untouched. *)
Lemma copy_assign_thrown_at a rhs f a' :
  Inv a -> copy_assign a (Other rhs) f = Thrown a' ->
  exists k, 0 <= k <= Z.min (Size a) (Size rhs) /\
    forall j, at_ a' j = if (0 <=? j) && (j <? k) then at_ rhs j else at_ a j.
Proof.
  intros Ha E. unfold Inv in Ha. unfold copy_assign in E. cbn [deref] in E.
  destruct (Z.ltb_spec (Capacity a) (Size rhs)) as [G|G].
  - destruct (Vector_copy rhs f) as [[c f1]|] eqn:V; [discriminate|].
    inversion E; subst a'. exists 0. split; [lia|]. intros j. slot.
  - destruct (Z.ltb_spec (Size rhs) (Size a)) as [L|L].
    + destruct (assign_loop _ _ _ _ _) as [t o] eqn:A.
      destruct (assign_loop_other_partial _ _ _ _ _ _ _ A) as (k & Hk & _ & At).
      destruct o; [discriminate|]. inversion E; subst a'.
      exists k. split; [|exact At].
      destruct (Z.lt_ge_cases (Size rhs) 0) as [N|N]; [|lia].
      exfalso. assert (Z0 : Z.to_nat (Size rhs) = 0%nat) by lia.
      rewrite Z0 in A. simpl in A. discriminate.
    + destruct (assign_loop _ _ _ _ _) as [t o] eqn:A.
      destruct (assign_loop_other_partial _ _ _ _ _ _ _ A) as (k & Hk & Ho & At).
      destruct o as [f1|].
      * cbn [deref] in E.
        destruct (uninitialized_copy_n _ _ _ _ _ _) as [[b f2]|]; [discriminate|].
        inversion E; subst a'. exists k. split; [lia|exact At].
      * inversion E; subst a'. exists k. split; [lia|exact At].
Qed.

(** The slots after [a = a], returned or thrown. *)
Lemma copy_assign_self_at a f :
  Inv a ->
  after (copy_assign a Self f)
    (fun a' => Size a' = Size a /\ Capacity a' = Capacity a /\
               forall i, at_ a' i = at_ a i).
Proof.
  intros I. unfold Inv in I. unfold copy_assign. cbn [deref].
  destruct (Z.ltb_spec (Capacity a) (Size a)) as [G|G]; [lia|].
  destruct (Z.ltb_spec (Size a) (Size a)) as [L|L]; [lia|].
  destruct (assign_loop _ _ _ _ _) as [t o] eqn:A.
  pose proof (assign_loop_self _ _ _ _ _ _ A) as At.
  apply assign_loop_shape in A. destruct A as (A1 & A2 & _).
  destruct o as [f1|]; cbn [deref].
  - rewrite Z.sub_diag. cbn [Z.to_nat uninitialized_copy_n after].
    repeat split; auto.
  - cbn [after]. auto.
Qed.

End Slots.

Section RepPreserved.

Context {T : Type} `{ET : Element T}.

Implicit Types (v a rhs : Vector T) (f : schedule) (x : T) (b : block T).

Lemma Rep_same_live v v' :
  Rep v -> Size v' = Size v -> Capacity v' = Capacity v ->
  (forall j, at_ v' j = None <-> at_ v j = None) -> Rep v'.
Proof.
  intros R S C L. pose proof (proj1 R) as I. apply Rep_intro.
  - lia.
  - intros i Hi N. apply L in N. revert N. apply (Rep_live _ _ R). lia.
  - intros i Hi. apply L. apply (Rep_raw _ _ R). lia.
Qed.

Lemma Rep_Inv v : Rep v -> Inv v.
Proof. intros [I _]. exact I. Qed.

Lemma Reserve_thrown_live v c f v' :
  Reserve v c f = Thrown v' -> forall j, at_ v' j = None <-> at_ v j = None.
Proof.
  unfold Reserve, RawMemory_new. intros E j.
  run; try reflexivity; rewrite at_set_buffer;
    eapply relocate_source_live; eassumption.
Qed.

Lemma PushBack_thrown_live v x f v' :
  PushBack v x f = Thrown v' -> forall j, at_ v' j = None <-> at_ v j = None.
Proof.
  unfold PushBack, RawMemory_new. intros E j.
  run; try reflexivity; rewrite at_set_buffer;
    eapply relocate_source_live; eassumption.
Qed.

Lemma Emplace_thrown_live v p x f v' :
  Emplace v p x f = Thrown v' -> forall j, at_ v' j = None <-> at_ v j = None.
Proof.
  unfold Emplace, RawMemory_new. intros E j.
  run; try reflexivity; rewrite at_set_buffer.
  all: repeat match goal with
       | H : relocate _ _ _ _ _ _ = _ |- _ =>
           apply relocate_source_live with (j := j) in H
       end; unfold at_; tauto.
Qed.

Lemma Reserve_Rep v c f : Rep v -> after (Reserve v c f) Rep.
Proof.
  intros R. pose proof (proj1 R) as I.
  pose proof (Reserve_shape v c f) as Sh.
  destruct (Reserve v c f) as [v' f'|v'|] eqn:E; cbn [after]; [| |trivial].
  - pose proof (Reserve_spec _ _ _ _ _ E) as A. destruct Sh as [S C].
    apply Rep_intro.
    + destruct C as [[? ->]|[? ?]]; lia.
    + intros i Hi. rewrite A. rewrite S in Hi. cmp; simpl; try lia.
      all: apply (Rep_live _ _ R); lia.
    + intros i Hi. rewrite A. rewrite S in Hi. cmp; simpl; try lia; try reflexivity.
      all: apply (Rep_raw _ _ R); lia.
  - destruct Sh as (S & C & _).
    apply (Rep_same_live v v' R S C), (Reserve_thrown_live _ _ _ _ E).
Qed.

Lemma PushBack_Rep v x f : Rep v -> after (PushBack v x f) Rep.
Proof.
  intros R. pose proof (proj1 R) as I.
  pose proof (PushBack_shape v x f) as Sh.
  destruct (PushBack v x f) as [v' r|v'|] eqn:E; cbn [after]; [| |trivial].
  - pose proof (PushBack_at _ _ _ _ _ (proj1 I) E) as A. destruct Sh as [S C].
    unfold grown in C. apply Rep_intro.
    + cmp; lia.
    + intros i Hi. rewrite A. rewrite S in Hi. cmp; simpl; try lia; try discriminate.
      all: apply (Rep_live _ _ R); lia.
    + intros i Hi. rewrite A. rewrite S in Hi. cmp; simpl; try lia; try reflexivity.
      all: apply (Rep_raw _ _ R); lia.
  - destruct Sh as (S & C).
    apply (Rep_same_live v v' R S C), (PushBack_thrown_live _ _ _ _ E).
Qed.

Lemma EmplaceBack_Rep v x f : Rep v -> after (EmplaceBack v x f) Rep.
Proof.
  intros R. pose proof (PushBack_Rep v x f R) as P.
  pose proof (PushBack_as_EmplaceBack v x f) as Q.
  destruct (EmplaceBack v x f); cbn [after]; [| |exact I]; rewrite Q in P; exact P.
Qed.

Lemma PopBack_Rep v : Rep v -> after (PopBack v) Rep.
Proof.
  intros R. pose proof (proj1 R) as I. unfold PopBack.
  destruct (Z.leb_spec (Size v) 0); cbn [after]; [trivial|].
  apply Rep_intro.
  - unfold Size, Capacity in *. simpl. lia.
  - intros i Hi. unfold at_, Size in *. simpl in *. unfold upd.
    destruct (Z.eqb_spec i (size_ v - 1)); [lia|]. apply (Rep_live _ _ R).
    unfold Size. lia.
  - intros i Hi. unfold at_, Size in *. simpl in *. unfold upd.
    destruct (Z.eqb_spec i (size_ v - 1)); [reflexivity|]. apply (Rep_raw _ _ R).
    unfold Size. lia.
Qed.

Lemma Emplace_Rep v p x f : Rep v -> after (Emplace v p x f) Rep.
Proof.
  intros R. pose proof (proj1 R) as I.
  pose proof (Emplace_shape v p x f) as Sh.
  destruct (Emplace v p x f) as [v' r|v'|] eqn:E; cbn [after]; [| |trivial].
  - destruct (Emplace_at _ _ _ _ _ _ (proj1 I) E) as [Hr A].
    destruct Sh as (S & _ & _ & Hp & C). unfold grown in C. apply Rep_intro.
    + cmp; lia.
    + intros i Hi. rewrite A. rewrite S in Hi. cmp; simpl; try lia; try discriminate.
      all: apply (Rep_live _ _ R); lia.
    + intros i Hi. rewrite A. rewrite S in Hi. cmp; simpl; try lia; try reflexivity.
      all: apply (Rep_raw _ _ R); lia.
  - destruct Sh as (S & C & _).
    apply (Rep_same_live v v' R S C), (Emplace_thrown_live _ _ _ _ _ E).
Qed.

Lemma Erase_Rep v p f : Rep v -> after (Erase v p f) Rep.
Proof.
  intros R. pose proof (proj1 R) as I.
  pose proof (Erase_shape v p f) as Sh.
  destruct (Erase v p f) as [v' r|v'|] eqn:E; cbn [after]; [| |trivial].
  - destruct (Erase_at _ _ _ _ _ E) as [Hr A].
    destruct Sh as (S & C & _). apply Rep_intro.
    + lia.
    + intros i Hi. rewrite A. rewrite S in Hi. cmp; simpl; try lia.
      all: apply (Rep_live _ _ R); lia.
    + intros i Hi. rewrite A. rewrite S in Hi. cmp; simpl; try lia; try reflexivity.
      all: apply (Rep_raw _ _ R); lia.
  - destruct Sh as (S & C). apply (Rep_same_live v v' R S C).
    unfold Erase in E.
    destruct ((p <? 0) || (Size v <=? p)) eqn:B; [discriminate|].
    apply orb_false_elim in B. destruct B as [B1 B2].
    apply Z.ltb_ge in B1. apply Z.leb_gt in B2.
    pose proof (to_int_le p B1) as Le.
    destruct (Z.ltb_spec (to_int p) 0); [discriminate|].
    destruct (move_range _ _ _ _ _) as [b [f1|]] eqn:M; [discriminate|].
    inversion E; subst v'. intros j. rewrite at_set_buffer.
    assert (Eq : to_int p + 1 - 1 = to_int p) by lia.
    pose proof (fun b0 => move_range_live (Z.to_nat (Size v - (to_int p + 1))) b0
                            (to_int p + 1) f b None) as ML.
    rewrite Eq in ML. apply (ML _ M).
    intros k Hk. apply (Rep_live _ _ R). lia.
Qed.

Lemma Resize_Rep v n f : 0 <= n -> Rep v -> after (Resize v n f) Rep.
Proof.
  intros Hn R. pose proof (proj1 R) as I. unfold Resize.
  destruct (Z.eqb_spec n (Size v)); [exact R|].
  destruct (Z.ltb_spec n (Size v)).
  - cbn [after]. apply Rep_intro.
    + unfold Size, Capacity in *. simpl. lia.
    + intros i Hi. unfold at_ at 1. simpl. rewrite destroy_n_spec.
      unfold Size in Hi. simpl in Hi. cmp; simpl; try lia.
      all: apply (Rep_live _ _ R); lia.
    + intros i Hi. unfold at_ at 1. simpl. rewrite destroy_n_spec.
      unfold Size in Hi. simpl in Hi. cmp; simpl; try lia; try reflexivity.
      all: apply (Rep_raw _ _ R); lia.
  - pose proof (Reserve_Rep v n f R) as RR.
    pose proof (Reserve_shape v n f) as Sh.
    destruct (Reserve v n f) as [v1 f1|v1|]; cbn [after] in *; [|exact RR|trivial].
    destruct (uninitialized_value_construct_n _ _ _ _) as [[b f2]|] eqn:U;
      cbn [after]; [|exact RR].
    pose proof (proj1 RR) as I1. destruct Sh as [S1 C1].
    assert (C : n <= Capacity v1) by (destruct C1 as [[? ->]|[? ?]]; lia).
    apply Rep_intro.
    + unfold Size, Capacity in *. simpl. lia.
    + intros i Hi. unfold at_ at 1. simpl.
      rewrite (uninitialized_value_construct_n_spec _ _ _ _ _ _ U i).
      unfold Size in Hi. simpl in Hi. cmp; simpl; try lia; try discriminate.
      all: apply (Rep_live _ _ RR); lia.
    + intros i Hi. unfold at_ at 1. simpl.
      rewrite (uninitialized_value_construct_n_spec _ _ _ _ _ _ U i).
      unfold Size in Hi. simpl in Hi. cmp; simpl; try lia; try reflexivity.
      all: apply (Rep_raw _ _ RR); lia.
Qed.

Lemma copy_assign_Rep a rhs f :
  Rep a -> Rep rhs -> after (copy_assign a (Other rhs) f) Rep.
Proof.
  intros R Rr. pose proof (proj1 R) as I. pose proof (proj1 Rr) as Ir.
  pose proof (copy_assign_shape a (Other rhs) f) as Sh. cbn [deref] in Sh.
  destruct (copy_assign a (Other rhs) f) as [a' r|a'|] eqn:E; cbn [after]; [| |trivial].
  - pose proof (copy_assign_at _ _ _ _ _ (proj1 I) E) as A. destruct Sh as [S C].
    apply Rep_intro.
    + lia.
    + intros i Hi. rewrite A. rewrite S in Hi. cmp; simpl; try lia.
      all: apply (Rep_live _ _ Rr); lia.
    + intros i Hi. rewrite A. rewrite S in Hi. cmp; simpl; try lia; try reflexivity.
      all: apply (Rep_raw _ _ R); lia.
  - destruct Sh as [S C].
    destruct (copy_assign_thrown_at _ _ _ _ I E) as (k & Hk & A).
    apply (Rep_same_live a a' R S C). intros j. rewrite A.
    destruct (Z.leb_spec 0 j); destruct (Z.ltb_spec j k); cbn [andb]; try reflexivity.
    split; intros N; exfalso; revert N.
    + apply (Rep_live _ _ Rr). lia.
    + apply (Rep_live _ _ R). lia.
Qed.

Lemma self_assign_Rep a f : Rep a -> after (copy_assign a Self f) Rep.
Proof.
  intros R. pose proof (copy_assign_self_at a f (Rep_Inv _ R)) as P.
  destruct (copy_assign a Self f) as [a' r|a'|]; cbn [after] in *; [| |exact I];
    destruct P as (S & C & A); apply (Rep_same_live a a' R S C);
    intros j; rewrite A; reflexivity.
Qed.

Lemma Rep_ends {A} (o : outcome T A) v' : after o Rep -> ends o v' -> Rep v'.
Proof.
  intros P [[r E]|E]; rewrite E in P; exact P.
Qed.

Lemma reachable_Rep v : reachable v -> Rep v.
Proof.
  induction 1 as
    [ | n f v f' Hn E | o f v f' _ IH E | o _ IH | o _ IH
    | v rhs f v' _ IH _ IHr E | v f v' _ IH E
    | v c f v' _ IH Hc E | v n f v' _ IH Hn E
    | v x f v' _ IH E | v x f v' _ IH E | v v' _ IH E
    | v p x f v' _ IH E | v p x f v' _ IH E | v p f v' _ IH E
    | v o _ IHv _ IHo | v o _ IHv _ IHo ].
  - apply Rep_intro; [unfold Size, Capacity; simpl; lia| |reflexivity].
    intros i Hi. unfold Size in Hi. simpl in Hi. lia.
  - destruct (Vector_sized_shape _ _ _ _ E) as [S C].
    pose proof (Vector_sized_at _ _ _ _ Hn E) as A. apply Rep_intro; [lia| |].
    + intros i Hi. rewrite A. rewrite S in Hi. cmp; simpl; try lia; discriminate.
    + intros i Hi. rewrite A. rewrite S in Hi. cmp; simpl; try lia; reflexivity.
  - destruct (Vector_copy_shape _ _ _ _ E) as [S C]. pose proof (proj1 IH) as I.
    pose proof (Vector_copy_spec _ _ _ _ E) as A. apply Rep_intro; [lia| |].
    + intros i Hi. rewrite A. rewrite S in Hi. cmp; simpl; try lia.
      apply (Rep_live _ _ IH). lia.
    + intros i Hi. rewrite A. rewrite S in Hi. cmp; simpl; try lia; reflexivity.
  - apply (Rep_same_live o _ IH); reflexivity.
  - apply Rep_intro; [unfold Size, Capacity; simpl; lia| |reflexivity].
    intros i Hi. unfold Size in Hi. simpl in Hi. lia.
  - exact (Rep_ends _ _ (copy_assign_Rep v rhs f IH IHr) E).
  - exact (Rep_ends _ _ (self_assign_Rep v f IH) E).
  - exact (Rep_ends _ _ (Reserve_Rep v c f IH) E).
  - exact (Rep_ends _ _ (Resize_Rep v n f Hn IH) E).
  - exact (Rep_ends _ _ (PushBack_Rep v x f IH) E).
  - exact (Rep_ends _ _ (EmplaceBack_Rep v x f IH) E).
  - exact (Rep_ends _ _ (PopBack_Rep v IH) E).
  - exact (Rep_ends _ _ (Emplace_Rep v p x f IH) E).
  - exact (Rep_ends _ _ (Emplace_Rep v p x f IH) E).
  - exact (Rep_ends _ _ (Erase_Rep v p f IH) E).
  - rewrite Swap_fst. apply (Rep_same_live o _ IHo); reflexivity.
  - rewrite Swap_snd. apply (Rep_same_live v _ IHv); reflexivity.
Qed.

End RepPreserved.

(** * What the invariant gives *)

Section Consequences.

Context {T : Type} `{ET : Element T}.

Implicit Types (v a rhs : Vector T) (f : schedule) (x : T).

(** In every state a vector reaches through the public interface, by
    normal return or by an exception, the slots that hold an object are
    exactly those of [[0, Size())]: no element is left unconstructed, none
    is constructed or left alive outside the range. *)
Theorem live_slots v :
  reachable v -> forall i, at_ v i <> None <-> 0 <= i < Size v.
Proof. intros R. apply (proj2 (reachable_Rep v R)). Qed.

(** The destructor of a reachable vector leaves no object in the block it
    releases. *)
Theorem Vector_destroy_all v :
  reachable v -> forall i, Vector_destroy v i = None.
Proof.
  intros R i. apply reachable_Rep in R. pose proof (proj1 R) as I.
  unfold Vector_destroy. rewrite destroy_n_spec.
  destruct (Z.leb_spec 0 i); destruct (Z.ltb_spec i (0 + Z.of_nat (Z.to_nat (Size v))));
    cbn [andb]; try reflexivity; apply (Rep_raw _ _ R); lia.
Qed.

(** On a reachable vector, [operator[]] with an index below [Size()]
    passes the assertion of the vector and that of the raw memory and
    yields a live element; with an index of [Size()] or more the non-const
    overload fails its assertion. *)
Theorem Vector_index_checked v i :
  reachable v -> 0 <= i ->
  (i < Size v ->
     exists x, at_ v i = Some x /\ Vector_index v i = Some (Some x) /\
               Vector_index_const v i = Some (Some x)) /\
  (Size v <= i -> Vector_index v i = None).
Proof.
  intros R Hi. apply reachable_Rep in R. pose proof (proj1 R) as I.
  unfold Vector_index, Vector_index_const, RawMemory_index.
  unfold Size, Capacity, at_ in *. split; intros H.
  - destruct (buffer_ (data_ v) i) as [x|] eqn:E.
    + exists x. split; [reflexivity|].
      destruct (Z.ltb_spec i (size_ v)); [|lia].
      destruct (Z.ltb_spec i (capacity_ (data_ v))); [|lia].
      split; reflexivity.
    + exfalso. revert E. apply (Rep_live _ _ R). unfold Size. lia.
  - destruct (Z.ltb_spec i (size_ v)); [lia|reflexivity].
Qed.


(** On a vector that is not empty and has a spare slot, [end()] is inside
    the block and not a pointer [operator new] returned.  There [Emplace]
    never ends in a propagated exception with the vector in a defined
    state: it returns, or (position out of range, [pos] negative, or an
    exception reaching the handler that passes [end()] to
    [operator delete]) its behaviour is undefined.  In particular it is
    undefined when the first element operation throws. *)
Theorem Emplace_spare_never_throws v p x :
  0 < Size v < Capacity v ->
  (forall f v', Emplace v p x f <> Thrown v') /\
  Emplace v p x (After 0) = Undefined.
Proof.
  intros [_ C]. split.
  - intros f v' E. pose proof (Emplace_shape v p x f) as Sh. rewrite E in Sh. lia.
  - unfold Emplace. destruct ((p <? 0) || (Size v <? p)); [reflexivity|].
    destruct (to_int p <? 0); [reflexivity|].
    destruct (Z.ltb_spec (Size v) (Capacity v)); [|lia].
    destruct (negb (p =? Size v)); reflexivity.
Qed.

(** [Reserve(c)] with [c <= Capacity()] returns the vector as it is and
    attempts nothing that can throw; with [c > Capacity()], where the byte
    size of [c] elements is a [size_t], it returns when nothing throws,
    and then the capacity is exactly [c], the size and the elements are
    unchanged and the rest of the new block is raw. *)
Theorem Reserve_exact v c :
  (c <= Capacity v -> forall f, Reserve v c f = Done v f) /\
  (Capacity v < c -> 0 <= c -> fits c ->
     (exists v', Reserve v c Never = Done v' Never) /\
     forall f v' f', Reserve v c f = Done v' f' ->
       Size v' = Size v /\ Capacity v' = c /\
       forall i, at_ v' i =
         if (0 <=? i) && (i <? Size v) then at_ v i else None).
Proof.
  split.
  - intros L f. unfold Reserve. destruct (Z.leb_spec c (Capacity v)); [reflexivity|lia].
  - intros G Hc Hf. split; [apply (Reserve_Never v c Hc Hf)|].
    intros f v' f' E. pose proof (Reserve_shape v c f) as Sh. rewrite E in Sh.
    pose proof (Reserve_spec _ _ _ _ _ E) as A.
    split; [lia|]. split; [lia|]. intros i. rewrite A.
    destruct (Z.leb_spec c (Capacity v)); [lia|reflexivity].
Qed.

(** For a vector of fewer than [2^31] elements and a position in
    [[0, Size()]], [Emplace] (and so [Insert]) returns when nothing throws;
    when it returns, the iterator is at [p], the element there is [x], the
    elements in front of [p] are unchanged, those from [p] on are one slot
    further, and the size is one more. *)
Theorem Emplace_below_INT_MAX v p x :
  0 <= p <= Size v -> Size v < 2 ^ 31 ->
  (exists v', Emplace v p x Never = Done v' p) /\
  forall f v' r, Emplace v p x f = Done v' r ->
    r = p /\ Size v' = Size v + 1 /\ at_ v' p = Some x /\
    (forall i, 0 <= i < p -> at_ v' i = at_ v i) /\
    (forall i, p <= i < Size v -> at_ v' (i + 1) = at_ v i).
Proof. exact (Emplace_spec v p x). Qed.

(** For a position in [[0, Size())] below [2^31], [Erase] returns when
    nothing throws; when it returns, the iterator is at [p], the elements
    in front of [p] are unchanged, those behind it are one slot nearer, the
    last slot holds no object, the size is one less and the capacity is
    unchanged. *)
Theorem Erase_below_INT_MAX v p :
  0 <= p < Size v -> p < 2 ^ 31 ->
  (exists v', Erase v p Never = Done v' p) /\
  forall f v' r, Erase v p f = Done v' r ->
    r = p /\ Size v' = Size v - 1 /\ Capacity v' = Capacity v /\
    (forall i, 0 <= i < p -> at_ v' i = at_ v i) /\
    (forall i, p <= i < Size v - 1 -> at_ v' i = at_ v (i + 1)) /\
    at_ v' (Size v - 1) = None.
Proof. exact (Erase_spec v p). Qed.

(** For a vector of fewer than [2^31] elements, [Erase] at the iterator
    an [Insert] returned does return, and gives back the size and the
    elements the vector had before the [Insert]. *)
Theorem Insert_then_Erase v p x f v1 r :
  0 <= p <= Size v -> Size v < 2 ^ 31 ->
  Insert v p x f = Done v1 r ->
  (exists v2, Erase v1 r Never = Done v2 p) /\
  forall f' v2 r', Erase v1 r f' = Done v2 r' ->
    Size v2 = Size v /\ forall i, 0 <= i < Size v -> at_ v2 i = at_ v i.
Proof. exact (Insert_Erase_roundtrip v p x f v1 r). Qed.

(** For a vector of fewer than [2^31] elements, whatever [EmplaceBack]
    returns, [Emplace] at [end()] and (as to the state) [PushBack] return
    too; out of a full vector the three throw alike. *)
Theorem Emplace_at_end v x f :
  0 <= Size v < 2 ^ 31 ->
  match EmplaceBack v x f with
  | Done v1 r => Emplace v (Size v) x f = Done v1 r /\ PushBack v x f = Done v1 tt
  | Thrown v1 =>
      PushBack v x f = Thrown v1 /\
      (Capacity v <= Size v -> Emplace v (Size v) x f = Thrown v1)
  | Undefined => True
  end.
Proof.
  intros Hs. pose proof (Emplace_end_EmplaceBack v x f Hs) as A.
  pose proof (PushBack_as_EmplaceBack v x f) as B.
  destruct (EmplaceBack v x f); auto.
Qed.

End Consequences.

(** A vector reached by one [PushBack] on the empty vector. *)
Lemma reachable_singleton :
  exists v : Vector Z, PushBack Vector_default 7 Never = Done v tt /\ reachable v.
Proof.
  destruct (PushBack_Never (@Vector_default Z) 7) as [v E].
  exists v. split; [exact E|].
  apply (reach_PushBack Vector_default 7 Never v reach_default).
  left. exists tt. exact E.
Qed.

Lemma live_slots_witness :
  exists v : Vector Z, reachable v /\
    (at_ v 0 <> None <-> 0 <= 0 < Size v) /\ (at_ v 1 <> None <-> 0 <= 1 < Size v).
Proof.
  destruct reachable_singleton as (v & _ & R).
  exists v. split; [exact R|].
  split; [exact (live_slots v R 0)|exact (live_slots v R 1)].
Defined.

Lemma Vector_destroy_all_witness :
  exists v : Vector Z, reachable v /\ Vector_destroy v 0 = None.
Proof.
  destruct reachable_singleton as (v & _ & R).
  exists v. split; [exact R|exact (Vector_destroy_all v R 0)].
Defined.

Lemma Vector_index_checked_witness :
  exists v : Vector Z, reachable v /\ 0 <= 5 /\
    (Size v <= 5 -> Vector_index v 5 = None).
Proof.
  destruct reachable_singleton as (v & _ & R).
  assert (H : 0 <= 5) by discriminate.
  exists v. split; [exact R|]. split; [exact H|].
  exact (proj2 (Vector_index_checked v 5 R H)).
Defined.


Lemma Emplace_spare_never_throws_witness :
  0 < Size (of_list [1; 2] 1) < Capacity (of_list [1; 2] 1) /\
  Emplace (of_list [1; 2] 1) 1 9 (After 0) = Undefined.
Proof.
  assert (C : 0 < Size (of_list [1; 2] 1) < Capacity (of_list [1; 2] 1))
    by (vm_compute; split; reflexivity).
  split; [exact C|].
  exact (proj2 (Emplace_spare_never_throws (of_list [1; 2] 1) 1 9 C)).
Defined.

Lemma Reserve_exact_witness :
  Capacity (of_list [1; 2] 0) < 6 /\ 0 <= 6 /\ @fits Z _ 6 /\
  exists v', Reserve (of_list [1; 2] 0) 6 Never = Done v' Never /\
             Size v' = 2 /\ Capacity v' = 6 /\
             slots v' 3 = [Some 1; Some 2; None].
Proof.
  assert (G : Capacity (of_list [1; 2] 0) < 6) by (vm_compute; reflexivity).
  assert (Hc : 0 <= 6) by discriminate.
  assert (Hf : @fits Z _ 6) by (split; reflexivity).
  split; [exact G|]. split; [exact Hc|]. split; [exact Hf|].
  destruct (proj2 (Reserve_exact (of_list [1; 2] 0) 6) G Hc Hf) as [[v' E] P].
  exists v'. split; [exact E|].
  destruct (P Never v' Never E) as (S & C & A).
  split; [exact S|]. split; [exact C|].
  unfold slots. cbn [seq map]. rewrite !A. reflexivity.
Defined.

Lemma Emplace_below_INT_MAX_witness :
  0 <= 1 <= Size (of_list [0; 1; 2; 3; 4] 0) /\
  Size (of_list [0; 1; 2; 3; 4] 0) < 2 ^ 31 /\
  exists v', Emplace (of_list [0; 1; 2; 3; 4] 0) 1 99 Never = Done v' 1 /\
             Size v' = 6 /\ at_ v' 1 = Some 99 /\ at_ v' 0 = Some 0 /\
             at_ v' 2 = Some 1.
Proof.
  assert (Hp : 0 <= 1 <= Size (of_list [0; 1; 2; 3; 4] 0))
    by (vm_compute; split; discriminate).
  assert (Hs : Size (of_list [0; 1; 2; 3; 4] 0) < 2 ^ 31) by (vm_compute; reflexivity).
  split; [exact Hp|]. split; [exact Hs|].
  destruct (Emplace_below_INT_MAX (of_list [0; 1; 2; 3; 4] 0) 1 99 Hp Hs) as [[v' E] P].
  exists v'. split; [exact E|].
  destruct (P Never v' 1 E) as (_ & S & X & Lo & Hi).
  split; [exact S|]. split; [exact X|].
  split; [apply (Lo 0); split; [discriminate|reflexivity]|].
  apply (Hi 1). vm_compute. split; [discriminate|reflexivity].
Defined.

Lemma Erase_below_INT_MAX_witness :
  0 <= 1 < Size (of_list [0; 99; 1; 2] 0) /\ 1 < 2 ^ 31 /\
  exists v', Erase (of_list [0; 99; 1; 2] 0) 1 Never = Done v' 1 /\
             Size v' = 3 /\ at_ v' 1 = Some 1 /\ at_ v' 3 = None.
Proof.
  assert (Hp : 0 <= 1 < Size (of_list [0; 99; 1; 2] 0))
    by (vm_compute; split; [discriminate|reflexivity]).
  assert (Hs : 1 < 2 ^ 31) by reflexivity.
  split; [exact Hp|]. split; [exact Hs|].
  destruct (Erase_below_INT_MAX (of_list [0; 99; 1; 2] 0) 1 Hp Hs) as [[v' E] P].
  exists v'. split; [exact E|].
  destruct (P Never v' 1 E) as (_ & S & _ & _ & Hi & N).
  split; [exact S|].
  split; [apply (Hi 1); vm_compute; split; [discriminate|reflexivity]|exact N].
Defined.

Lemma Insert_then_Erase_witness :
  0 <= 1 <= Size (of_list [0; 1; 2] 0) /\ Size (of_list [0; 1; 2] 0) < 2 ^ 31 /\
  exists v1 v2, Insert (of_list [0; 1; 2] 0) 1 99 Never = Done v1 1 /\
                Erase v1 1 Never = Done v2 1 /\ Size v2 = 3 /\
                at_ v2 1 = Some 1.
Proof.
  assert (Hp : 0 <= 1 <= Size (of_list [0; 1; 2] 0))
    by (vm_compute; split; discriminate).
  assert (Hs : Size (of_list [0; 1; 2] 0) < 2 ^ 31) by (vm_compute; reflexivity).
  split; [exact Hp|]. split; [exact Hs|].
  destruct (proj1 (Emplace_spec (of_list [0; 1; 2] 0) 1 99 Hp Hs)) as [v1 E].
  destruct (Insert_then_Erase _ _ _ _ _ _ Hp Hs E) as [[v2 E2] P].
  exists v1, v2. split; [exact E|]. split; [exact E2|].
  destruct (P Never v2 1 E2) as (S & A).
  split; [exact S|]. apply (A 1). vm_compute. split; [discriminate|reflexivity].
Defined.

Lemma Emplace_at_end_witness :
  0 <= Size (of_list [1; 2] 0) < 2 ^ 31 /\
  exists v1, EmplaceBack (of_list [1; 2] 0) 3 Never = Done v1 2 /\
             Emplace (of_list [1; 2] 0) 2 3 Never = Done v1 2 /\
             PushBack (of_list [1; 2] 0) 3 Never = Done v1 tt.
Proof.
  assert (Hs : 0 <= Size (of_list [1; 2] 0) < 2 ^ 31)
    by (vm_compute; split; [discriminate|reflexivity]).
  split; [exact Hs|].
  pose proof (Emplace_at_end (of_list [1; 2] 0) 3 Never Hs) as A.
  destruct (EmplaceBack_Never (of_list [1; 2] 0) 3) as [v1 E].
  rewrite E in A. exists v1. split; [exact E|]. exact A.
Defined.

(** * A count whose byte size is no [size_t] *)

(** C6 at [Vector<int> v(1); v.Resize(size_t(1) << 62)]: the vector is
    too small, [Reserve] asks [Allocate] for [2^62 * 4] bytes, the product
    wraps to 0, [operator new] returns a block of no room without throwing,
    and the relocation and the value-construction of the new elements write
    past it, where the claim has [Resize] end with [Size() == n]. *)
Theorem Resize_past_SIZE_MAX :
  0 <= 2 ^ 62 < 2 ^ 64 /\
  Allocate_bytes (T := int32) (2 ^ 62) = 0 /\
  Allocate_slots (T := int32) (2 ^ 62) = 0 /\
  Resize (of_list [Int32 0] 0) (2 ^ 62) Never = Undefined.
Proof. vm_compute. repeat split; discriminate. Qed.
